(** * ai-proxy: admission control and usage accounting

    A shallow embedding of [.netlify/functions/ai-proxy.js]: the
    multi-tier sliding-window rate limiter ([checkRateLimit],
    [cleanupOldEntries]), the usage counters ([logUsage],
    [getUsageStats]) and the request handler ([exports.handler]); and of
    the single-tier handler that follows it in the same file ([Basic]).

    Conventions of the embedding.
    - Timestamps ([Date.now()]) and counters are integers, held in [Z].
    - A JS object used as a dictionary is a [gmap] keyed by [string];
      [RATE_LIMITS], whose key order drives the loops, is an association
      list in declaration order.
    - The module-level [let] bindings [requestCounts] and [usageStats]
      are threaded explicitly as a [State].
    - Every read of the outside world (the clock, the environment
      variable, the upstream HTTP call, [JSON.parse]) is an input of the
      function that performs it.
    - [requestCounts] is read at client addresses; what it inherits
      from [Object.prototype] is not part of the ledger, and the
      properties that depend on it are stated for identities that name
      no property of [Object.prototype] (see [plain]).
    - [console.log] lines are not part of the state; the one whose
      argument can throw is modelled by that throw. *)

From Stdlib Require Import ZArith Floats.
From stdpp Require Import gmap strings list fin_maps pretty sorting.

Local Open Scope Z_scope.

(** ** Configuration *)

Record RateLimit := { max : Z; window : Z }.

(** [RATE_LIMITS], in the order [Object.entries] enumerates it. *)
Definition RATE_LIMITS : list (string * RateLimit) :=
  [ ("minute"%string, {| max := 10;  window := 60 * 1000 |});
    ("hour"%string,   {| max := 50;  window := 60 * 60 * 1000 |});
    ("day"%string,    {| max := 200; window := 24 * 60 * 60 * 1000 |}) ].

(** [RATE_LIMITS[period]]. *)
Fixpoint limit_of (limits : list (string * RateLimit)) (period : string)
  : option RateLimit :=
  match limits with
  | [] => None
  | (p, config) :: rest =>
      if decide (p = period) then Some config else limit_of rest period
  end.

(** ** In-memory storage *)

(** [requestCounts[ip]]: period name to the array of recorded timestamps. *)
Abbreviation Bucket := (gmap string (list Z)).
Abbreviation Ledger := (gmap string (gmap string (list Z))).

Record UsageStats := {
  totalRequests : Z;
  uniqueIPs : gset string;
  startTime : Z;
  errors : Z;
  rateLimitHits : Z
}.

Record State := {
  requestCounts : Ledger;
  usageStats : UsageStats
}.

(** The module's initial bindings; [startTime] is the clock at load. *)
Definition initial_state (loaded_at : Z) : State :=
  {| requestCounts := ∅;
     usageStats := {| totalRequests := 0; uniqueIPs := ∅;
                      startTime := loaded_at; errors := 0;
                      rateLimitHits := 0 |} |}.

(** [arr.filter(timestamp => now - timestamp < w)]. *)
Definition prune (now w : Z) (arr : list Z) : list Z :=
  filter (λ timestamp, now - timestamp < w) arr.

(** The array at [bucket[period]], an absent key read as the empty array
    the code would initialise it to. *)
Definition timestamps (b : Bucket) (period : string) : list Z :=
  default [] (b !! period).

Definition recorded (l : Ledger) (ip period : string) : list Z :=
  timestamps (default ∅ (l !! ip)) period.

(** ** cleanupOldEntries *)

(** [Math.max(...Object.values(RATE_LIMITS).map(r => r.window))];
    [Math.max()] of no argument is -Infinity, which no timestamp
    difference is below, and is never reached with three tiers. *)
Definition maxWindow (limits : list (string * RateLimit)) : option Z :=
  match limits with
  | [] => None
  | (_, c) :: rest => Some (foldl (λ m pc, Z.max m (window pc.2)) (window c) rest)
  end.

Definition sweep_filter (now : Z) (mw : option Z) (arr : list Z) : list Z :=
  match mw with
  | Some w => prune now w arr
  | None => []
  end.

(** One iteration of the outer [for (const ip in requestCounts)] loop:
    every array of the bucket is filtered against [maxWindow]; the bucket
    is deleted when all its arrays are then empty. *)
Definition sweep_bucket (now : Z) (mw : option Z) (b : Bucket) : option Bucket :=
  let b' := sweep_filter now mw <$> b in
  if decide (map_Forall (λ _ arr, length arr = 0%nat) b') then None else Some b'.

(** The loop visits the stored entries: the keys of [requestCounts]
    itself, as long as [Object.prototype] has been given no enumerable
    property. *)
Definition cleanupOldEntries (now : Z) (l : Ledger) : Ledger :=
  omap (sweep_bucket now (maxWindow RATE_LIMITS)) l.

(** ** checkRateLimit *)

Inductive RateLimitResult :=
| Allowed
| Denied (period : string) (limit : Z).

(** The first loop: per period, initialise, prune, compare with [max];
    the first period at its limit ends the loop. *)
Fixpoint check_periods (now : Z) (limits : list (string * RateLimit)) (b : Bucket)
  : Bucket * RateLimitResult :=
  match limits with
  | [] => (b, Allowed)
  | (period, config) :: rest =>
      let arr := prune now (window config) (timestamps b period) in
      let b' := <[period := arr]> b in
      if decide (max config ≤ Z.of_nat (length arr))
      then (b', Denied period (max config))
      else check_periods now rest b'
  end.

(** The second loop: [requestCounts[ip][period].push(now)] for every key
    of [RATE_LIMITS]. The first loop has created every array by then. *)
Definition record_all (now : Z) (limits : list (string * RateLimit)) (b : Bucket)
  : Bucket :=
  foldl (λ acc pc, <[pc.1 := timestamps acc pc.1 ++ [now]]> acc) b limits.

(** [requestCounts[ip]] is the entry stored for [ip]. The code reads it
    along the prototype chain, which gives the same for every identity
    that names no property of [Object.prototype]. *)
Definition checkRateLimit_with (limits : list (string * RateLimit))
    (ip : string) (now : Z) (l : Ledger) : Ledger * RateLimitResult :=
  let b := default ∅ (l !! ip) in
  match check_periods now limits b with
  | (b', Allowed) => (<[ip := record_all now limits b']> l, Allowed)
  | (b', denied) => (<[ip := b']> l, denied)
  end.

Definition checkRateLimit : string → Z → Ledger → Ledger * RateLimitResult :=
  checkRateLimit_with RATE_LIMITS.

(** ** JavaScript values *)

(** A value produced by [JSON.parse]. Numbers are IEEE doubles; a
    string is the sequence of its code units, of which only the
    emptiness and the number are ever looked at. *)
#[warnings="-register-all"]
Inductive json :=
| JNull
| JBool (b : bool)
| JNum (x : float)
| JStr (s : string)
| JArr (items : list json)
| JObj (fields : list (string * json)).

(** The result of an expression that may be [undefined]. *)
Abbreviation value := (option json).

Fixpoint assoc (fields : list (string * json)) (key : string) : value :=
  match fields with
  | [] => None
  | (k, v) :: rest => if decide (k = key) then Some v else assoc rest key
  end.

(** [v.key] for a key that no prototype defines: the field of an object,
    [undefined] on an array or a primitive. Reading a property of [null]
    throws and is handled where it can occur. *)
Definition prop (v : value) (key : string) : value :=
  match v with
  | Some (JObj fields) => assoc fields key
  | _ => None
  end.

(** ToBoolean. *)
Definition truthy (v : value) : bool :=
  match v with
  | None | Some JNull => false
  | Some (JBool b) => b
  | Some (JNum x) => negb (is_zero x || is_nan x)
  | Some (JStr s) => negb (bool_decide (s = ""%string))
  | Some (JArr _) | Some (JObj _) => true
  end.

Definition typeof_string (v : value) : bool :=
  match v with Some (JStr _) => true | _ => false end.

Definition isArray (v : value) : bool :=
  match v with Some (JArr _) => true | _ => false end.

(** [v.length] of a string or an array. *)
Definition js_length (v : value) : Z :=
  match v with
  | Some (JStr s) => Z.of_nat (String.length s)
  | Some (JArr items) => Z.of_nat (length items)
  | _ => 0
  end.

(** Whether the string conversion of a template literal, [`${v}`],
    throws. A primitive always has a string form. A parsed object reaches
    [Object.prototype.toString] unless it has a field [toString] of its
    own: no parsed value can be called, so the conversion passes on to
    [valueOf], which, inherited, gives the object back and, as a field,
    cannot be called either; a TypeError follows. An array joins the
    string forms of its elements, [null] taken as the empty string. *)
Fixpoint ToString_throws (v : json) : bool :=
  match v with
  | JObj fields =>
      match assoc fields "toString" with Some _ => true | None => false end
  | JArr items => existsb ToString_throws items
  | _ => false
  end.

(** [s.includes(sub)]. *)
Fixpoint includes (s sub : string) : bool :=
  String.prefix sub s ||
  match s with
  | EmptyString => false
  | String _ s' => includes s' sub
  end.

(** ** Numbers of the statistics snapshot *)

(** The double holding an integer; exact below 2^53 in magnitude, which
    covers every [Date.now()] and every counter. *)
Definition float_of_Z (z : Z) : float :=
  match z with
  | Z0 => 0%float
  | Zpos _ => PrimFloat.of_uint63 (Uint63.of_Z z)
  | Zneg p => (- PrimFloat.of_uint63 (Uint63.of_Z (Zpos p)))%float
  end.

(** [Math.round]: the nearest integer, ties towards +Infinity; NaN, the
    zeros and the infinities are returned as they are, and a negative
    argument that rounds to zero gives -0. *)
Definition Math_round (x : float) : float :=
  match Prim2SF x with
  | S754_finite s m e =>
      if decide (0 ≤ e) then x
      else
        let n := if s then Zneg m else Zpos m in
        let r := (2 * n + 2 ^ (- e)) `div` 2 ^ (- e + 1) in
        if decide (r = 0) then (if s then neg_zero else zero) else float_of_Z r
  | _ => x
  end.

(** ** logUsage and getUsageStats *)

(** [logUsage(ip, userAgent, prompt, success)]. The user agent and the
    prompt only reach the console line, which is not part of the state. *)
Definition logUsage (ip : string) (success : bool) (u : UsageStats) : UsageStats :=
  {| totalRequests := totalRequests u + 1;
     uniqueIPs := {[ip]} ∪ uniqueIPs u;
     startTime := startTime u;
     errors := if success then errors u else errors u + 1;
     rateLimitHits := rateLimitHits u |}.

Record Stats := {
  stats_totalRequests : Z;
  stats_uniqueIPs : Z;
  stats_errors : Z;
  stats_rateLimitHits : Z;
  stats_uptimeHours : float;
  stats_requestsPerHour : float;
  stats_activeIPs : Z
}.

Definition uptimeHours (now : Z) (u : UsageStats) : float :=
  (float_of_Z (now - startTime u) / float_of_Z (1000 * 60 * 60))%float.

Definition getUsageStats (now : Z) (st : State) : Stats :=
  let u := usageStats st in
  let uptimeHours := uptimeHours now u in
  {| stats_totalRequests := totalRequests u;
     stats_uniqueIPs := Z.of_nat (size (uniqueIPs u));
     stats_errors := errors u;
     stats_rateLimitHits := rateLimitHits u;
     stats_uptimeHours := (Math_round (uptimeHours * 10) / 10)%float;
     stats_requestsPerHour :=
       (Math_round ((float_of_Z (totalRequests u) / uptimeHours) * 10) / 10)%float;
     stats_activeIPs := Z.of_nat (size (requestCounts st)) |}.

(** ** The handler's inputs and outputs *)

(** [event.body] by what [JSON.parse(event.body || '{}')] makes of it. *)
Inductive EventBody :=
| NoBody                 (* null, undefined or '': '{}' is parsed instead *)
| Malformed              (* JSON.parse throws *)
| Parsed (v : json).

Record Event := {
  httpMethod : string;
  path : string;
  headers : gmap string string;
  body : EventBody
}.

(** What [fetch] followed by [response.json()] gives. *)
Inductive FetchResult :=
| FetchThrows            (* network failure or an unparsable answer *)
| FetchJson (data : json).

(** What one invocation reads from outside: the clock at each
    [Date.now()], [process.env.HUGGINGFACE_API_KEY], and the upstream
    service as a function of the payload posted to it. *)
Record Env := {
  now_stats : Z;         (* Date.now() in getUsageStats *)
  now_cleanup : Z;       (* Date.now() in cleanupOldEntries *)
  now_check : Z;         (* Date.now() in checkRateLimit *)
  HUGGINGFACE_API_KEY : option string;
  fetch : json → FetchResult
}.

(** Response bodies before [JSON.stringify]. *)
Inductive Body :=
| EmptyBody
| StatsBody (stats : Stats)
| ErrorBody (error : string)
| RateLimitBody (error : string) (retryAfter : Z)
| DataBody (data : json).

Record Response := { statusCode : Z; response_body : Body }.

(** [event.headers[k1] || event.headers[k2] || ... || fallback]. *)
Fixpoint first_header (h : gmap string string) (keys : list string)
    (fallback : string) : string :=
  match keys with
  | [] => fallback
  | k :: rest =>
      match h !! k with
      | Some v => if decide (v = ""%string) then first_header h rest fallback else v
      | None => first_header h rest fallback
      end
  end.

Definition client_ip (event : Event) : string :=
  first_header (headers event)
    ["x-forwarded-for"; "client-ip"; "x-real-ip"]%string "unknown".

(** [RATE_LIMITS[period].window / 1000]. The period is the one
    [checkRateLimit] reported, always a key of [RATE_LIMITS]; the windows
    are whole seconds, so the quotient is exact. *)
Definition retryAfter_of (period : string) : Z :=
  match limit_of RATE_LIMITS period with
  | Some config => window config `div` 1000
  | None => 0
  end.

Definition rate_limit_message (limit : Z) (period : string) : string :=
  ("Rate limit exceeded. Maximum " +:+ pretty limit +:+ " requests per "
     +:+ period +:+ ".")%string.

(** The condition guarding "Invalid conversation history". *)
Definition conversation_invalid (conversation : value) : bool :=
  truthy conversation &&
  (negb (isArray (prop conversation "past_user_inputs"))
   || negb (isArray (prop conversation "generated_responses"))
   || bool_decide (10 < js_length (prop conversation "past_user_inputs"))
   || bool_decide (10 < js_length (prop conversation "generated_responses"))).

Definition or_empty (v : value) : json :=
  if truthy v then default JNull v else JArr [].

Definition hfPayload (prompt conversation : value) : json :=
  if truthy conversation then
    JObj [("inputs"%string,
           JObj [("past_user_inputs"%string,
                  or_empty (prop conversation "past_user_inputs"));
                 ("generated_responses"%string,
                  or_empty (prop conversation "generated_responses"));
                 ("text"%string, default JNull prompt)])]
  else JObj [("inputs"%string, default JNull prompt)].

Definition api_key_set (key : option string) : bool :=
  match key with
  | Some k => negb (bool_decide (k = ""%string))
  | None => false
  end.

(** [JSON.parse(event.body || '{}')], [None] when it throws. *)
Definition parsed_body (event : Event) : option json :=
  match body event with
  | NoBody => Some (JObj [])
  | Malformed => None
  | Parsed v => Some v
  end.

(** The body of the [try] block, run on the usage counters: the counters
    it leaves, and the response it returns or [None] when it throws. The
    one [console.log] of the block that can throw is the template literal
    of the 502 branch, which converts [data.error] to a string after
    [logUsage] has run. *)
Definition try_block (event : Event) (env : Env) (ip : string) (u : UsageStats)
  : UsageStats * option Response :=
  match parsed_body event with
  | None => (u, None)
  | Some JNull => (u, None)              (* destructuring null throws *)
  | Some parsed =>
      let prompt := prop (Some parsed) "prompt" in
      let conversation := prop (Some parsed) "conversation" in
      if negb (truthy prompt) || negb (typeof_string prompt) then
        (logUsage ip false u,
         Some {| statusCode := 400;
                 response_body := ErrorBody "Invalid or missing prompt" |})
      else if decide (500 < js_length prompt) then
        (logUsage ip false u,
         Some {| statusCode := 400;
                 response_body := ErrorBody "Prompt too long (max 500 characters)" |})
      else if conversation_invalid conversation then
        (logUsage ip false u,
         Some {| statusCode := 400;
                 response_body := ErrorBody "Invalid conversation history" |})
      else if negb (api_key_set (HUGGINGFACE_API_KEY env)) then
        (logUsage ip false u,
         Some {| statusCode := 500;
                 response_body := ErrorBody "AI service not configured" |})
      else
        match fetch env (hfPayload prompt conversation) with
        | FetchThrows => (u, None)
        | FetchJson JNull => (u, None)   (* data.error on null throws *)
        | FetchJson data =>
            if truthy (prop (Some data) "error") then
              (* logUsage, then console.log(`... ${data.error}`) *)
              if ToString_throws (default JNull (prop (Some data) "error")) then
                (logUsage ip false u, None)
              else
                (logUsage ip false u,
                 Some {| statusCode := 502;
                         response_body := ErrorBody "AI service error" |})
            else
              (logUsage ip true u,
               Some {| statusCode := 200; response_body := DataBody data |})
        end
  end.

(** [try { ... } catch (error) { ... }]. *)
Definition try_catch (event : Event) (env : Env) (ip : string) (u : UsageStats)
  : UsageStats * Response :=
  match try_block event env ip u with
  | (u', Some response) => (u', response)
  | (u', None) =>
      (logUsage ip false u',
       {| statusCode := 500; response_body := ErrorBody "Internal server error" |})
  end.

Definition hit (u : UsageStats) : UsageStats :=
  {| totalRequests := totalRequests u;
     uniqueIPs := uniqueIPs u;
     startTime := startTime u;
     errors := errors u;
     rateLimitHits := rateLimitHits u + 1 |}.

(** The ledger after "clean up old entries periodically (every 100
    requests)". *)
Definition swept (env : Env) (st : State) : Ledger :=
  if decide (Z.rem (totalRequests (usageStats st)) 100 = 0)
  then cleanupOldEntries (now_cleanup env) (requestCounts st)
  else requestCounts st.

(** [exports.handler]. *)
Definition handler (event : Event) (env : Env) (st : State) : State * Response :=
  if decide (httpMethod event = "OPTIONS"%string) then
    (st, {| statusCode := 200; response_body := EmptyBody |})
  else if bool_decide (httpMethod event = "GET"%string)
          && includes (path event) "/stats" then
    (st, {| statusCode := 200;
            response_body := StatsBody (getUsageStats (now_stats env) st) |})
  else if decide (httpMethod event ≠ "POST"%string) then
    (st, {| statusCode := 405; response_body := ErrorBody "Method not allowed" |})
  else
    let ip := client_ip event in
    match checkRateLimit ip (now_check env) (swept env st) with
    | (counts', Denied period limit) =>
        ({| requestCounts := counts'; usageStats := hit (usageStats st) |},
         {| statusCode := 429;
            response_body := RateLimitBody (rate_limit_message limit period)
                                           (retryAfter_of period) |})
    | (counts', Allowed) =>
        let '(u', response) := try_catch event env ip (usageStats st) in
        ({| requestCounts := counts'; usageStats := u' |}, response)
    end.

(** ** Histories *)

(** [checkRateLimit] for one identity at each clock reading in turn. *)
Fixpoint run_checks (ip : string) (times : list Z) (l : Ledger)
  : Ledger * list RateLimitResult :=
  match times with
  | [] => (l, [])
  | now :: rest =>
      let '(l', r) := checkRateLimit ip now l in
      let '(l'', rs) := run_checks ip rest l' in
      (l'', r :: rs)
  end.

(** The ledgers the two operations can build from the empty one, under
    any identities and any clock readings. *)
Inductive reachable : Ledger → Prop :=
| reachable_empty : reachable ∅
| reachable_check ip now l :
    reachable l → reachable (checkRateLimit ip now l).1
| reachable_cleanup now l :
    reachable l → reachable (cleanupOldEntries now l).

(** The tiers declared before [period]. *)
Fixpoint tiers_before (limits : list (string * RateLimit)) (period : string)
  : list (string * RateLimit) :=
  match limits with
  | [] => []
  | (p, config) :: rest =>
      if decide (p = period) then [] else (p, config) :: tiers_before rest period
  end.

(** [check earlier now] at every call of a history, [earlier] being the
    clock readings of the calls before it. *)
Fixpoint at_each_call (check : list Z → Z → bool) (earlier rest : list Z) : bool :=
  match rest with
  | [] => true
  | now :: rest' =>
      check earlier now && at_each_call check (earlier ++ [now]) rest'
  end.

(** Every earlier call is less than [w] before this one. *)
Definition within_window (w : Z) (earlier : list Z) (now : Z) : bool :=
  forallb (λ t, bool_decide (now - t < w)) earlier.

(** None of the tiers [limits] would be at its limit at this call even
    if it had recorded every earlier call. *)
Definition room_in (limits : list (string * RateLimit))
    (earlier : list Z) (now : Z) : bool :=
  forallb (λ pc, bool_decide
             (Z.of_nat (length (prune now (window pc.2) earlier)) < max pc.2))
          limits.

(** * Vocabulary of the properties *)

(** ** Ledgers *)

(** No array ever holds more timestamps than its tier admits. *)
Definition within_limits (l : Ledger) : Prop :=
  ∀ ip p c, (p, c) ∈ RATE_LIMITS → Z.of_nat (length (recorded l ip p)) ≤ max c.

(** The tiers a call pruned: all of them when it was allowed, the denying
    tier and those declared before it otherwise. *)
Definition pruned_in_call (r : RateLimitResult) (q : string) : Prop :=
  match r with
  | Allowed => True
  | Denied p _ => q = p ∨ q ∈ (tiers_before RATE_LIMITS p).*1
  end.

(** After the calls in [seen] of identity [ip], while tier [p] is being
    exhausted: [p] and the tiers declared after it hold all of them, the
    tiers declared before it some of them. *)
Definition holds (ip p : string) (l : Ledger) (seen : list Z) : Prop :=
  ∀ q cq, (q, cq) ∈ RATE_LIMITS →
    recorded l ip q `sublist_of` seen
    ∧ (q ∉ (tiers_before RATE_LIMITS p).*1 → recorded l ip q = seen).

(** ** Requests *)

(** The payload posted upstream when the request passes every check that
    precedes the [fetch]; [None] when it is answered before. *)
Definition forwards (event : Event) (env : Env) : option json :=
  match parsed_body event with
  | None | Some JNull => None
  | Some parsed =>
      let prompt := prop (Some parsed) "prompt" in
      let conversation := prop (Some parsed) "conversation" in
      if negb (truthy prompt) || negb (typeof_string prompt) then None
      else if decide (500 < js_length prompt) then None
      else if conversation_invalid conversation then None
      else if negb (api_key_set (HUGGINGFACE_API_KEY env)) then None
      else Some (hfPayload prompt conversation)
  end.

(** The downstream call failed: the fetch or [response.json()] threw, or
    the answer carries a truthy [error]; an answer of [null] makes
    [data.error] throw. *)
Definition upstream_failed (r : FetchResult) : bool :=
  match r with
  | FetchThrows => true
  | FetchJson JNull => true
  | FetchJson data => truthy (prop (Some data) "error")
  end.

(** The two rejections of C1, each with the message it is answered
    with, for a body that parses to an object with fields [fields]. *)
Inductive InvalidPayload (fields : list (string * json)) : string → Prop :=
| PromptTooLong s :
    assoc fields "prompt" = Some (JStr s) →
    500 < Z.of_nat (String.length s) →
    InvalidPayload fields "Prompt too long (max 500 characters)"
| HistoryTooLong s cfields items :
    assoc fields "prompt" = Some (JStr s) →
    s ≠ ""%string →
    Z.of_nat (String.length s) ≤ 500 →
    assoc fields "conversation" = Some (JObj cfields) →
    assoc cfields "past_user_inputs" = Some (JArr items) →
    10 < Z.of_nat (length items) →
    InvalidPayload fields "Invalid conversation history".

(** The handler on a series of requests, each with what it reads from
    outside. *)
Fixpoint run_handler (requests : list (Event * Env)) (st : State)
  : State * list Response :=
  match requests with
  | [] => (st, [])
  | (event, env) :: rest =>
      let '(st', response) := handler event env st in
      let '(st'', responses) := run_handler rest st' in
      (st'', response :: responses)
  end.

(** ** The rate the specification asks for *)

(** The larger of two doubles. *)
Definition float_max (x y : float) : float :=
  if (x <? y)%float then y else x.

(** The rate as the specification words it:
    [totalRequests / max(uptimeHours, eps)]. *)
Definition requestsPerUptimeHour_guarded (eps : float) (now : Z) (st : State) : float :=
  (float_of_Z (totalRequests (usageStats st))
   / float_max (uptimeHours now (usageStats st)) eps)%float.

(** ** Worked inputs *)

(** A client address. *)
Definition alice : string := "1.2.3.4".

(** The ledger after one admitted call at time 0. *)
Definition ledger_one_call : Ledger := (checkRateLimit alice 0 ∅).1.

(** The ledger after ten calls in the same millisecond. *)
Definition ledger_ten_calls : Ledger := (run_checks alice (replicate 10 0) ∅).1.

(** A POST from [ip] with body [b]. *)
Definition post (ip : string) (b : EventBody) : Event :=
  {| httpMethod := "POST"; path := "/.netlify/functions/ai-proxy";
     headers := {[ "x-forwarded-for"%string := ip ]}; body := b |}.

(** A GET of the statistics. *)
Definition get_stats : Event :=
  {| httpMethod := "GET"; path := "/.netlify/functions/ai-proxy/stats";
     headers := ∅; body := NoBody |}.

(** Every clock read gives [t]; the key is set; the upstream is down. *)
Definition env_at (t : Z) : Env :=
  {| now_stats := t; now_cleanup := t; now_check := t;
     HUGGINGFACE_API_KEY := Some "hf_key"%string;
     fetch := λ _, FetchThrows |}.

(** The body [{prompt: s}]. *)
Definition with_prompt (s : string) : EventBody :=
  Parsed (JObj [("prompt"%string, JStr s)]).

(** A prompt of 501 characters. *)
Definition long_prompt : string :=
  String.string_of_list_ascii (replicate 501 (Ascii.ascii_of_nat 97)).

(** An array of 11 strings. *)
Definition eleven_inputs : json := JArr (replicate 11 (JStr "hi")).

(** A valid prompt with a conversation of 11 past inputs. *)
Definition with_long_history : EventBody :=
  Parsed (JObj [("prompt"%string, JStr "hello");
                ("conversation"%string,
                 JObj [("past_user_inputs"%string, eleven_inputs);
                       ("generated_responses"%string, JArr [])])]).

(** The state after ten POSTs of one client in the same millisecond. *)
Definition state_after_ten_posts : State :=
  (run_handler (replicate 10 (post alice (with_prompt "hi"), env_at 0))
               (initial_state 0)).1.

(** ** Histories and what they keep *)

(** What [checkRateLimit] makes of one identity's bucket: the two loops
    without the ledger around them. *)
Definition check_bucket (limits : list (string * RateLimit)) (now : Z) (b : Bucket)
  : Bucket * RateLimitResult :=
  match check_periods now limits b with
  | (b', Allowed) => (record_all now limits b', Allowed)
  | (b', denied) => (b', denied)
  end.

(** Every tier's array is a subsequence of the array of each tier
    declared after it. *)
Definition nested (l : Ledger) : Prop :=
  ∀ ip p c q cq,
    (p, c) ∈ tiers_before RATE_LIMITS q → (q, cq) ∈ RATE_LIMITS →
    recorded l ip p `sublist_of` recorded l ip q.

(** One operation on the ledger, with the clock reading it makes. *)
Inductive Call :=
| Check (ip : string) (now : Z)
| Sweep (now : Z).

Definition call_time (c : Call) : Z :=
  match c with
  | Check _ now | Sweep now => now
  end.

(** A series of operations on a ledger; beside the ledger, the clock
    readings of the calls of [ip] that were allowed, oldest first. *)
Fixpoint replay (ip : string) (calls : list Call) (l : Ledger) (admitted : list Z)
  : Ledger * list Z :=
  match calls with
  | [] => (l, admitted)
  | Check ip' now :: rest =>
      let '(l', r) := checkRateLimit ip' now l in
      replay ip rest l'
        (match r with
         | Allowed => if decide (ip' = ip) then admitted ++ [now] else admitted
         | Denied _ _ => admitted
         end)
  | Sweep now :: rest => replay ip rest (cleanupOldEntries now l) admitted
  end.

(** The clock never runs backwards: no reading is below [T] or below
    the one before it. *)
Fixpoint nondecreasing (T : Z) (times : list Z) : bool :=
  match times with
  | [] => true
  | t :: rest => bool_decide (T ≤ t) && nondecreasing t rest
  end.

(** The last of the readings, [T] when there is none. *)
Definition last_reading (T : Z) (times : list Z) : Z :=
  foldl (λ _ t, t) T times.

(** Under a clock that has reached [T]: every array of every identity
    is in chronological order and holds no timestamp later than [T]. *)
Definition chronological (T : Z) (l : Ledger) : Prop :=
  ∀ ip q c, (q, c) ∈ RATE_LIMITS →
    StronglySorted Z.le (recorded l ip q)
    ∧ Forall (λ t, t ≤ T) (recorded l ip q).

(** The admissions [admitted] of [ip] agree with the ledger on what is
    still inside each tier's window at [T], and no interval as long as
    a tier's window holds more of them than the tier admits. *)
Definition accounted (ip : string) (T : Z) (l : Ledger) (admitted : list Z) : Prop :=
  ∀ q c, (q, c) ∈ RATE_LIMITS →
    prune T (window c) admitted = prune T (window c) (recorded l ip q)
    ∧ ∀ s, Z.of_nat (length (filter (λ t, s - window c < t ≤ s) admitted)) ≤ max c.

(** The decision is a denial by tier [p]. *)
Definition denied_by (p : string) (r : RateLimitResult) : Prop :=
  match r with
  | Denied q _ => q = p
  | Allowed => False
  end.

(** The states the handler can be in: the module's initial state and
    whatever an invocation makes of such a state. *)
Inductive served : State → Prop :=
| served_initial loaded_at : served (initial_state loaded_at)
| served_next event env st : served st → served (handler event env st).1.

(** The same readings with another upstream service. *)
Definition with_fetch (f : json → FetchResult) (env : Env) : Env :=
  {| now_stats := now_stats env; now_cleanup := now_cleanup env;
     now_check := now_check env;
     HUGGINGFACE_API_KEY := HUGGINGFACE_API_KEY env;
     fetch := f |}.

(** The answer of the upstream service carries an [error] that is truthy
    and has no string form: the template literal of the 502 branch
    throws. *)
Definition unprintable_error (r : FetchResult) : bool :=
  match r with
  | FetchThrows => false
  | FetchJson data =>
      truthy (prop (Some data) "error")
      && ToString_throws (default JNull (prop (Some data) "error"))
  end.

(** The request is answered inside [try]/[catch] after two runs of
    [logUsage]. *)
Definition logged_twice (event : Event) (env : Env) : bool :=
  match forwards event env with
  | Some payload => unprintable_error (fetch env payload)
  | None => false
  end.

(** An error payload whose [error] has a field [toString]. *)
Definition unprintable : json :=
  JObj [("error"%string, JObj [("toString"%string, JNull)])].

(** Every clock read gives 0; the key is set; the upstream service
    answers [unprintable]. *)
Definition answers_unprintable : Env :=
  with_fetch (λ _, FetchJson unprintable) (env_at 0).

(** The same with an error payload whose [error] is a string. *)
Definition answers_model_loading : Env :=
  with_fetch (λ _, FetchJson (JObj [("error"%string, JStr "Model is loading")]))
             (env_at 0).

(** ** Identities and [Object.prototype]

    [requestCounts] is created as [{}], so [requestCounts[ip]] looks
    [ip] up along the prototype chain. For a client address that finds
    the entry the code stored or nothing, which is what the ledger as a
    [gmap] gives. At a property name of [Object.prototype] it finds the
    inherited value instead: ['__proto__'] gives [Object.prototype]
    itself, whose arrays every object then inherits; a name such as
    ['constructor'] gives a function, which serves as a bucket that
    [for (const ip in requestCounts)] never visits. The properties that
    relate identities to each other, or that say what the sweep removes,
    are therefore stated for histories of identities that name no such
    property: there the ledger is exactly what [requestCounts] holds. *)

(** The property names of [Object.prototype]. *)
Definition Object_prototype_names : list string :=
  [ "constructor"; "__defineGetter__"; "__defineSetter__"; "hasOwnProperty";
    "__lookupGetter__"; "__lookupSetter__"; "isPrototypeOf";
    "propertyIsEnumerable"; "toString"; "valueOf"; "__proto__";
    "toLocaleString" ]%string.

(** The identity names no property of [Object.prototype]. *)
Definition plain (ip : string) : bool :=
  bool_decide (ip ∉ Object_prototype_names).

(** The ledgers the two operations build from the empty one when every
    call is made for a plain identity. *)
Inductive reachable_plainly : Ledger → Prop :=
| plainly_empty : reachable_plainly ∅
| plainly_check ip now l :
    plain ip = true → reachable_plainly l →
    reachable_plainly (checkRateLimit ip now l).1
| plainly_cleanup now l :
    reachable_plainly l → reachable_plainly (cleanupOldEntries now l).


(** The states of the handler when every request came from a plain
    identity. *)
Inductive served_plainly : State → Prop :=
| served_plainly_initial loaded_at : served_plainly (initial_state loaded_at)
| served_plainly_next event env st :
    plain (client_ip event) = true → served_plainly st →
    served_plainly (handler event env st).1.

(** A header that is missing or empty: [||] passes on to the next. *)
Definition no_header (event : Event) (name : string) : Prop :=
  headers event !! name = None ∨ headers event !! name = Some ""%string.

(** * The single-tier handler

    The second handler of the file (after its first 235 lines): one
    window of a minute, 30 requests, no usage counters and no sweep. Its
    only state is [requestCounts], from client address to timestamps. *)
Module Basic.

Definition RATE_LIMIT_WINDOW_MS : Z := 60 * 1000.
Definition RATE_LIMIT_MAX : Z := 30.

(** [event.headers['x-forwarded-for'] || event.headers['client-ip'] ||
    'unknown']. *)
Definition client_ip (event : Event) : string :=
  first_header (headers event) ["x-forwarded-for"; "client-ip"]%string "unknown".

(** The body of the [try] block: the response it returns, [None] when
    it throws. *)
Definition try_block (event : Event) (env : Env) : option Response :=
  match parsed_body event with
  | None => None
  | Some JNull => None
  | Some parsed =>
      let prompt := prop (Some parsed) "prompt" in
      let conversation := prop (Some parsed) "conversation" in
      if negb (truthy prompt) || negb (typeof_string prompt)
         || bool_decide (500 < js_length prompt) then
        Some {| statusCode := 400;
                response_body := ErrorBody "Invalid or missing prompt" |}
      else if conversation_invalid conversation then
        Some {| statusCode := 400;
                response_body := ErrorBody "Invalid conversation history" |}
      else if negb (api_key_set (HUGGINGFACE_API_KEY env)) then
        Some {| statusCode := 500;
                response_body := ErrorBody "AI service not configured" |}
      else
        match fetch env (hfPayload prompt conversation) with
        | FetchThrows => None
        | FetchJson JNull => None
        | FetchJson data =>
            if truthy (prop (Some data) "error") then
              Some {| statusCode := 502;
                      response_body := ErrorBody "AI service error" |}
            else
              Some {| statusCode := 200; response_body := DataBody data |}
        end
  end.

Definition try_catch (event : Event) (env : Env) : Response :=
  match try_block event env with
  | Some response => response
  | None =>
      {| statusCode := 500; response_body := ErrorBody "Internal server error" |}
  end.

(** [exports.handler]; its one [Date.now()] is read as [now_check].
    [requestCounts[ip]] is the entry stored for [ip], as the code reads
    it for an identity that names no property of [Object.prototype]. *)
Definition handler (event : Event) (env : Env) (requestCounts : gmap string (list Z))
  : gmap string (list Z) * Response :=
  if decide (httpMethod event = "OPTIONS"%string) then
    (requestCounts, {| statusCode := 200; response_body := EmptyBody |})
  else if decide (httpMethod event ≠ "POST"%string) then
    (requestCounts,
     {| statusCode := 405; response_body := ErrorBody "Method not allowed" |})
  else
    let ip := client_ip event in
    let now := now_check env in
    let arr := prune now RATE_LIMIT_WINDOW_MS (default [] (requestCounts !! ip)) in
    if decide (RATE_LIMIT_MAX ≤ Z.of_nat (length arr)) then
      (<[ip := arr]> requestCounts,
       {| statusCode := 429;
          response_body := ErrorBody "Too many requests. Please slow down." |})
    else
      (<[ip := arr ++ [now]]> requestCounts, try_catch event env).

(** The states the handler can be in, from the empty [requestCounts]. *)
Inductive served : gmap string (list Z) → Prop :=
| served_initial : served ∅
| served_next event env counts : served counts → served (handler event env counts).1.

End Basic.

(** The single-tier state after thirty POSTs of one client in the same
    millisecond. *)
Definition basic_after_thirty_posts : gmap string (list Z) :=
  Nat.iter 30 (λ counts, (Basic.handler (post alice NoBody) (env_at 0) counts).1) ∅.

(** * Properties *)

(** ** Pruning *)

Lemma elem_of_prune now w arr t :
  t ∈ prune now w arr ↔ now - w < t ∧ t ∈ arr.
Proof. unfold prune. rewrite list_elem_of_filter. intuition lia. Qed.

Lemma prune_sublist now w arr : prune now w arr `sublist_of` arr.
Proof. apply sublist_filter. Qed.

Lemma length_prune now w arr : (length (prune now w arr) ≤ length arr)%nat.
Proof. apply length_filter. Qed.

Lemma prune_all now w arr :
  Forall (λ t, now - t < w) arr → prune now w arr = arr.
Proof.
  induction 1 as [|t arr Ht _ IH]; [done|].
  unfold prune in *. rewrite filter_cons_True by done. by f_equal.
Qed.

Lemma prune_prune now w arr : prune now w (prune now w arr) = prune now w arr.
Proof.
  apply prune_all, Forall_forall. by intros t [? _]%elem_of_prune; lia.
Qed.

Lemma prune_sublist_mono now w a b :
  a `sublist_of` b → prune now w a `sublist_of` prune now w b.
Proof.
  induction 1 as [|x a b _ IH|x a b _ IH]; unfold prune in *.
  - done.
  - rewrite !filter_cons. case_decide; [by constructor | done].
  - rewrite filter_cons. case_decide; [by constructor | done].
Qed.

(** ** The bucket after the two loops of checkRateLimit *)

Lemma timestamps_insert b p q arr :
  timestamps (<[p := arr]> b) q = if decide (p = q) then arr else timestamps b q.
Proof.
  unfold timestamps. rewrite lookup_insert. by case_decide.
Qed.

Lemma check_periods_other now limits b q :
  q ∉ limits.*1 → (check_periods now limits b).1 !! q = b !! q.
Proof.
  revert b. induction limits as [|[p c] rest IH]; intros b Hq; [done|].
  cbn in Hq. apply not_elem_of_cons in Hq as [Hne Hq].
  cbn. case_decide; cbn.
  - by rewrite lookup_insert_ne.
  - rewrite IH by done. by rewrite lookup_insert_ne.
Qed.

Lemma check_periods_allowed now limits b b' :
  NoDup limits.*1 →
  check_periods now limits b = (b', Allowed) →
  ∀ p c, (p, c) ∈ limits →
    timestamps b' p = prune now (window c) (timestamps b p)
    ∧ Z.of_nat (length (timestamps b' p)) < max c.
Proof.
  revert b. induction limits as [|[p0 c0] rest IH]; intros b Hnd Hrun p c Hin.
  { by apply elem_of_nil in Hin. }
  cbn in Hnd. apply NoDup_cons in Hnd as [Hfresh Hnd].
  cbn in Hrun. case_decide as Hfull; [done|].
  apply elem_of_cons in Hin as [Heq|Hin].
  - injection Heq as -> ->.
    assert (timestamps b' p0 = prune now (window c0) (timestamps b p0)) as E.
    { unfold timestamps at 1.
      replace b' with (check_periods now rest
        (<[p0 := prune now (window c0) (timestamps b p0)]> b)).1
        by (by rewrite Hrun).
      rewrite check_periods_other by done. by rewrite lookup_insert_eq. }
    rewrite E. split; [done | lia].
  - assert (p ≠ p0) as Hne.
    { intros ->. apply Hfresh. apply list_elem_of_fmap. by exists (p0, c). }
    destruct (IH _ Hnd Hrun p c Hin) as [E Hlt].
    rewrite timestamps_insert in E. case_decide; [congruence|]. by rewrite E in Hlt |- *.
Qed.

Lemma tier_config_unique (limits : list (string * RateLimit)) p c1 c2 :
  NoDup limits.*1 → (p, c1) ∈ limits → (p, c2) ∈ limits → c1 = c2.
Proof.
  induction limits as [|[q c] rest IH]; cbn; intros Hnd H1 H2.
  { by apply elem_of_nil in H1. }
  apply NoDup_cons in Hnd as [Hfresh Hnd].
  assert (∀ c', (q, c') ∈ rest → False) as Hno.
  { intros c' Hc'. apply Hfresh, list_elem_of_fmap. by exists (q, c'). }
  apply elem_of_cons in H1 as [E1|H1]; apply elem_of_cons in H2 as [E2|H2].
  - congruence.
  - injection E1 as -> _. by destruct (Hno _ H2).
  - injection E2 as -> _. by destruct (Hno _ H1).
  - by apply IH.
Qed.

Lemma tiers_before_subset limits p x :
  x ∈ tiers_before limits p → x ∈ limits.
Proof.
  induction limits as [|[r cr] rest IH]; cbn; [done|].
  case_decide; [by intros ?%elem_of_nil|].
  intros [->|Hx]%elem_of_cons; [left | right; auto].
Qed.

Lemma tiers_before_elem (limits : list (string * RateLimit)) p q c :
  NoDup limits.*1 → (q, c) ∈ limits →
  q ∈ (tiers_before limits p).*1 → (q, c) ∈ tiers_before limits p.
Proof.
  intros Hnd Hin ([q' c'] & Hq' & Hb)%list_elem_of_fmap. cbn in Hq'. subst q'.
  assert (c' = c) as ->; [|done].
  eapply tier_config_unique; [done | | done]. by eapply tiers_before_subset.
Qed.

Lemma check_periods_denied now limits b b' p lim :
  NoDup limits.*1 →
  check_periods now limits b = (b', Denied p lim) →
  ∃ c, (p, c) ∈ limits ∧ lim = max c
    ∧ timestamps b' p = prune now (window c) (timestamps b p)
    ∧ max c ≤ Z.of_nat (length (timestamps b' p))
    ∧ (∀ q cq, (q, cq) ∈ tiers_before limits p →
         timestamps b' q = prune now (window cq) (timestamps b q)
         ∧ Z.of_nat (length (timestamps b' q)) < max cq)
    ∧ (∀ q, q ≠ p → q ∉ (tiers_before limits p).*1 → b' !! q = b !! q).
Proof.
  revert b. induction limits as [|[p0 c0] rest IH]; intros b Hnd Hrun; [done|].
  cbn in Hnd. apply NoDup_cons in Hnd as [Hfresh Hnd].
  cbn in Hrun. case_decide as Hfull.
  - injection Hrun as <- <- <-. exists c0. cbn. rewrite decide_True by done.
    rewrite timestamps_insert, decide_True by done.
    split_and!; [left | done | done | done | |].
    + intros q cq Hq. by apply elem_of_nil in Hq.
    + intros q Hq _. by rewrite lookup_insert_ne.
  - destruct (IH _ Hnd Hrun) as (c & Hin & -> & E & Hge & Hpre & Hrest).
    assert (p0 ≠ p) as Hne.
    { intros ->. apply Hfresh. apply list_elem_of_fmap. by exists (p, c). }
    exists c. cbn. rewrite decide_False by done.
    rewrite timestamps_insert, decide_False in E by done.
    split_and!; [by right | done | done | done | |].
    + intros q cq Hq. apply elem_of_cons in Hq as [Heq|Hq].
      * injection Heq as -> ->.
        assert (timestamps b' p0 = prune now (window c0) (timestamps b p0)) as E0.
        { unfold timestamps at 1.
          replace b' with (check_periods now rest
            (<[p0 := prune now (window c0) (timestamps b p0)]> b)).1
            by (by rewrite Hrun).
          rewrite check_periods_other by done. by rewrite lookup_insert_eq. }
        rewrite E0. split; [done | lia].
      * destruct (Hpre q cq Hq) as [Eq Hlt].
        assert (q ≠ p0) as Hq0.
        { intros ->. apply Hfresh. apply list_elem_of_fmap.
          exists (p0, cq). split; [done | by eapply tiers_before_subset]. }
        rewrite timestamps_insert, decide_False in Eq by done. done.
    + intros q Hqp Hq. cbn in Hq. apply not_elem_of_cons in Hq as [Hq0 Hq].
      rewrite Hrest by done. by rewrite lookup_insert_ne.
Qed.

Lemma record_all_other now limits b q :
  q ∉ limits.*1 → record_all now limits b !! q = b !! q.
Proof.
  unfold record_all. revert b.
  induction limits as [|[p c] rest IH]; intros b Hq; [done|].
  cbn in Hq. apply not_elem_of_cons in Hq as [Hne Hq].
  cbn. rewrite IH by done. by rewrite lookup_insert_ne.
Qed.

Lemma record_all_key now limits b p :
  NoDup limits.*1 → p ∈ limits.*1 →
  timestamps (record_all now limits b) p = timestamps b p ++ [now].
Proof.
  unfold record_all. revert b.
  induction limits as [|[p0 c0] rest IH]; intros b Hnd Hp.
  { by apply elem_of_nil in Hp. }
  cbn in Hnd. apply NoDup_cons in Hnd as [Hfresh Hnd].
  cbn in Hp. apply elem_of_cons in Hp as [->|Hp]; cbn.
  - unfold timestamps at 1.
    pose proof (record_all_other now rest
      (<[p0 := timestamps b p0 ++ [now]]> b) p0 Hfresh) as E.
    unfold record_all in E. rewrite E. by rewrite lookup_insert_eq.
  - rewrite IH by done. rewrite timestamps_insert.
    case_decide; [subst; done | done].
Qed.

(** ** The ledger after checkRateLimit and cleanupOldEntries *)

Lemma RATE_LIMITS_NoDup : NoDup RATE_LIMITS.*1.
Proof. by apply (bool_decide_unpack _). Qed.

Lemma recorded_insert l ip ip' b q :
  recorded (<[ip := b]> l) ip' q
  = if decide (ip = ip') then timestamps b q else recorded l ip' q.
Proof.
  unfold recorded. rewrite lookup_insert. by case_decide.
Qed.

Lemma checkRateLimit_other_ip ip ip' now l :
  ip ≠ ip' → (checkRateLimit ip now l).1 !! ip' = l !! ip'.
Proof.
  intros Hne. unfold checkRateLimit, checkRateLimit_with.
  destruct (check_periods _ _ _) as [b' []]; cbn; by rewrite lookup_insert_ne.
Qed.

Section Limits.
Variable limits : list (string * RateLimit).
Hypothesis limits_NoDup : NoDup limits.*1.

Lemma checkRateLimit_with_allowed ip now l l' :
  checkRateLimit_with limits ip now l = (l', Allowed) →
  ∀ p c, (p, c) ∈ limits →
    recorded l' ip p = prune now (window c) (recorded l ip p) ++ [now]
    ∧ Z.of_nat (length (prune now (window c) (recorded l ip p))) < max c.
Proof using limits_NoDup.
  unfold checkRateLimit_with. intros Hrun p c Hin.
  destruct (check_periods _ _ _) as [b' r] eqn:Hloop.
  destruct r; [|done]. injection Hrun as <-.
  destruct (check_periods_allowed _ _ _ _ limits_NoDup Hloop p c Hin) as [E Hlt].
  rewrite recorded_insert, decide_True by done.
  rewrite record_all_key; [| done |].
  - rewrite E in Hlt |- *. done.
  - apply list_elem_of_fmap. by exists (p, c).
Qed.

Lemma checkRateLimit_with_denied ip now l l' p lim :
  checkRateLimit_with limits ip now l = (l', Denied p lim) →
  ∃ c, (p, c) ∈ limits ∧ lim = max c
    ∧ recorded l' ip p = prune now (window c) (recorded l ip p)
    ∧ max c ≤ Z.of_nat (length (recorded l' ip p))
    ∧ (∀ q cq, (q, cq) ∈ tiers_before limits p →
         recorded l' ip q = prune now (window cq) (recorded l ip q)
         ∧ Z.of_nat (length (recorded l' ip q)) < max cq)
    ∧ (∀ q, q ≠ p → q ∉ (tiers_before limits p).*1 →
         recorded l' ip q = recorded l ip q).
Proof using limits_NoDup.
  unfold checkRateLimit_with. intros Hrun.
  destruct (check_periods _ _ _) as [b' r] eqn:Hloop.
  destruct r as [|p' lim']; [done|]. injection Hrun as <- <- <-.
  destruct (check_periods_denied _ _ _ _ _ _ limits_NoDup Hloop)
    as (c & Hin & -> & E & Hge & Hpre & Hrest).
  exists c. split_and!; try done.
  - by rewrite recorded_insert, decide_True.
  - by rewrite recorded_insert, decide_True.
  - intros q cq Hq. rewrite recorded_insert, decide_True by done. by apply Hpre.
  - intros q Hqp Hq. rewrite recorded_insert, decide_True by done.
    unfold timestamps at 1. by rewrite Hrest.
Qed.
End Limits.

Lemma checkRateLimit_allowed ip now l l' :
  checkRateLimit ip now l = (l', Allowed) →
  ∀ p c, (p, c) ∈ RATE_LIMITS →
    recorded l' ip p = prune now (window c) (recorded l ip p) ++ [now]
    ∧ Z.of_nat (length (prune now (window c) (recorded l ip p))) < max c.
Proof. apply checkRateLimit_with_allowed, RATE_LIMITS_NoDup. Qed.

Lemma checkRateLimit_denied ip now l l' p lim :
  checkRateLimit ip now l = (l', Denied p lim) →
  ∃ c, (p, c) ∈ RATE_LIMITS ∧ lim = max c
    ∧ recorded l' ip p = prune now (window c) (recorded l ip p)
    ∧ max c ≤ Z.of_nat (length (recorded l' ip p))
    ∧ (∀ q cq, (q, cq) ∈ tiers_before RATE_LIMITS p →
         recorded l' ip q = prune now (window cq) (recorded l ip q)
         ∧ Z.of_nat (length (recorded l' ip q)) < max cq)
    ∧ (∀ q, q ≠ p → q ∉ (tiers_before RATE_LIMITS p).*1 →
         recorded l' ip q = recorded l ip q).
Proof. apply checkRateLimit_with_denied, RATE_LIMITS_NoDup. Qed.

Lemma sweep_filter_nil now mw : sweep_filter now mw [] = [].
Proof. by destruct mw. Qed.

Lemma recorded_cleanupOldEntries now l ip q :
  recorded (cleanupOldEntries now l) ip q
  = sweep_filter now (maxWindow RATE_LIMITS) (recorded l ip q).
Proof.
  unfold recorded, cleanupOldEntries. generalize (maxWindow RATE_LIMITS) as mw.
  intros mw. rewrite lookup_omap.
  destruct (l !! ip) as [b|]; cbn; [|by rewrite sweep_filter_nil].
  unfold sweep_bucket. case_decide as Hempty; cbn.
  - unfold timestamps. specialize (Hempty q). rewrite lookup_fmap in Hempty.
    destruct (b !! q) as [arr|]; cbn in *; [|by rewrite sweep_filter_nil].
    symmetry. apply nil_length_inv. by apply Hempty.
  - unfold timestamps. rewrite lookup_fmap.
    destruct (b !! q); cbn; [done | by rewrite sweep_filter_nil].
Qed.

Lemma maxWindow_RATE_LIMITS : maxWindow RATE_LIMITS = Some (24 * 60 * 60 * 1000).
Proof. reflexivity. Qed.

Lemma RATE_LIMITS_max_pos p c : (p, c) ∈ RATE_LIMITS → 0 < max c.
Proof.
  intros Hin.
  assert (Forall (λ pc, 0 < max pc.2) RATE_LIMITS) as Hall
    by (by apply (bool_decide_unpack _)).
  rewrite Forall_forall in Hall. exact (Hall _ Hin).
Qed.

Lemma RATE_LIMITS_window_pos p c : (p, c) ∈ RATE_LIMITS → 0 < window c.
Proof.
  intros Hin.
  assert (Forall (λ pc, 0 < window pc.2) RATE_LIMITS) as Hall
    by (by apply (bool_decide_unpack _)).
  rewrite Forall_forall in Hall. exact (Hall _ Hin).
Qed.

Lemma reachable_within_limits l : reachable l → within_limits l.
Proof.
  induction 1 as [|ip now l _ IH|now l _ IH]; intros ip' p c Hin.
  - pose proof (RATE_LIMITS_max_pos p c Hin).
    unfold recorded, timestamps. rewrite lookup_empty. cbn. rewrite lookup_empty. cbn. lia.
  - destruct (decide (ip = ip')) as [<-|Hne].
    2:{ unfold recorded. rewrite checkRateLimit_other_ip by done. by apply IH. }
    destruct (checkRateLimit ip now l) as [l' r] eqn:Hrun. cbn.
    pose proof (IH ip p c Hin) as Hold.
    pose proof (length_prune now (window c) (recorded l ip p)) as Hle.
    destruct r as [|pd lim].
    + destruct (checkRateLimit_allowed _ _ _ _ Hrun p c Hin) as [-> Hlt].
      rewrite length_app. cbn. lia.
    + destruct (checkRateLimit_denied _ _ _ _ _ _ Hrun)
        as (cd & Hind & _ & E & _ & Hpre & Hrest).
      destruct (decide (p = pd)) as [->|Hpd].
      * assert (c = cd) as ->.
        { by eapply tier_config_unique; [apply RATE_LIMITS_NoDup | |]. }
        rewrite E. lia.
      * destruct (decide (p ∈ (tiers_before RATE_LIMITS pd).*1)) as [Hb|Hb].
        -- apply (tiers_before_elem _ _ _ c RATE_LIMITS_NoDup Hin) in Hb.
           destruct (Hpre p c Hb) as [-> _]. lia.
        -- by rewrite Hrest.
  - rewrite recorded_cleanupOldEntries, maxWindow_RATE_LIMITS. cbn.
    pose proof (IH ip' p c Hin).
    pose proof (length_prune now (24 * 60 * 60 * 1000) (recorded l ip' p)). lia.
Qed.

Lemma reachable_run_checks ip times l :
  reachable l → reachable (run_checks ip times l).1.
Proof.
  revert l. induction times as [|now rest IH]; intros l Hl; [done|].
  cbn. pose proof (reachable_check ip now l Hl) as Hstep.
  destruct (checkRateLimit ip now l) as [l1 r]. cbn in Hstep.
  specialize (IH l1 Hstep). by destruct (run_checks ip rest l1).
Qed.

Lemma reachable_plainly_reachable l : reachable_plainly l → reachable l.
Proof.
  induction 1 as [|ip now l _ _ IH|now l _ IH];
    [apply reachable_empty | by apply reachable_check | by apply reachable_cleanup].
Qed.

Lemma reachable_plainly_run_checks ip times l :
  plain ip = true → reachable_plainly l → reachable_plainly (run_checks ip times l).1.
Proof.
  intros Hip. revert l. induction times as [|now rest IH]; intros l Hl; [done|].
  cbn. pose proof (plainly_check ip now l Hip Hl) as Hstep.
  destruct (checkRateLimit ip now l) as [l1 r]. cbn in Hstep.
  specialize (IH l1 Hstep). by destruct (run_checks ip rest l1).
Qed.

(** ** The handler on a POST: the admission *)

Lemma handler_post event env st :
  httpMethod event = "POST"%string →
  handler event env st =
    match checkRateLimit (client_ip event) (now_check env) (swept env st) with
    | (counts', Denied period limit) =>
        ({| requestCounts := counts'; usageStats := hit (usageStats st) |},
         {| statusCode := 429;
            response_body := RateLimitBody (rate_limit_message limit period)
                                           (retryAfter_of period) |})
    | (counts', Allowed) =>
        let '(u', response) := try_catch event env (client_ip event) (usageStats st) in
        ({| requestCounts := counts'; usageStats := u' |}, response)
    end.
Proof. intros Hpost. unfold handler. by rewrite Hpost. Qed.

(** ** C2: what a prune leaves *)

(** C2, as stated, fails for the sweep: after [cleanupOldEntries] at
    time 120000 the minute array of an identity admitted at time 0 still
    holds 0, which is outside [120000 - 60000, 120000]. *)
Lemma sweep_keeps_beyond_minute_window :
  ¬ (∀ t, t ∈ recorded (cleanupOldEntries 120000 ledger_one_call) alice "minute" →
          120000 - 60 * 1000 ≤ t ≤ 120000).
Proof.
  intros H. assert (0 ∈ recorded (cleanupOldEntries 120000 ledger_one_call)
                          alice "minute") as Hin.
  { vm_compute. left. }
  specialize (H 0 Hin). lia.
Qed.

(** C2 (amended). After [checkRateLimit] at time [now], every timestamp
    left in a tier the call pruned is later than [now - window] of that
    tier. After [cleanupOldEntries] at time [now], in a ledger built by
    the requests of identities that name no property of
    [Object.prototype] (the identities the sweep visits), every
    timestamp left, in any tier, is later than [now] minus the longest
    window (the day's). In such a ledger, when no timestamp recorded for
    the identity before was later than [now], none is after either
    operation. *)
Theorem prune_bounds ip now l :
  (∀ l' r q c t,
     checkRateLimit ip now l = (l', r) → (q, c) ∈ RATE_LIMITS →
     pruned_in_call r q → t ∈ recorded l' ip q →
     now - window c < t)
  ∧ (reachable_plainly l →
     ∀ q c t,
       (q, c) ∈ RATE_LIMITS → t ∈ recorded (cleanupOldEntries now l) ip q →
       now - 24 * 60 * 60 * 1000 < t)
  ∧ (reachable_plainly l →
     Forall (λ pc, Forall (λ t, t ≤ now) (recorded l ip pc.1)) RATE_LIMITS →
     (∀ l' r q c t,
        checkRateLimit ip now l = (l', r) → (q, c) ∈ RATE_LIMITS →
        t ∈ recorded l' ip q → t ≤ now)
     ∧ (∀ q c t,
          (q, c) ∈ RATE_LIMITS → t ∈ recorded (cleanupOldEntries now l) ip q →
          t ≤ now)).
Proof.
  split_and!.
  - intros l' r q c t Hrun Hin Hpruned Ht.
    pose proof (RATE_LIMITS_window_pos q c Hin) as Hw.
    destruct r as [|p lim].
    + destruct (checkRateLimit_allowed _ _ _ _ Hrun q c Hin) as [E _].
      rewrite E in Ht. apply elem_of_app in Ht as [Ht|Ht].
      * by apply elem_of_prune in Ht as [Hlow Ht].
      * apply list_elem_of_singleton in Ht as ->. lia.
    + destruct (checkRateLimit_denied _ _ _ _ _ _ Hrun)
        as (cd & Hind & _ & E & _ & Hpre & _).
      assert (recorded l' ip q = prune now (window c) (recorded l ip q)) as Eq.
      { destruct Hpruned as [->|Hb].
        - by rewrite (tier_config_unique _ _ _ _ RATE_LIMITS_NoDup Hin Hind).
        - apply (tiers_before_elem _ _ _ c RATE_LIMITS_NoDup Hin) in Hb.
          by destruct (Hpre q c Hb). }
      rewrite Eq in Ht. by apply elem_of_prune in Ht as [Hlow Ht].
  - intros _ q c t Hin Ht.
    rewrite recorded_cleanupOldEntries, maxWindow_RATE_LIMITS in Ht. cbn in Ht.
    apply elem_of_prune in Ht as [Hlow Ht]. lia.
  - intros _ Hpast. rewrite Forall_forall in Hpast.
    assert (∀ q c t, (q, c) ∈ RATE_LIMITS → t ∈ recorded l ip q → t ≤ now) as Hle.
    { intros q c t Hin Ht. specialize (Hpast _ Hin). cbn in Hpast.
      rewrite Forall_forall in Hpast. by apply Hpast. }
    split.
    + intros l' r q c t Hrun Hin Ht. destruct r as [|p lim].
      * destruct (checkRateLimit_allowed _ _ _ _ Hrun q c Hin) as [E _].
        rewrite E in Ht. apply elem_of_app in Ht as [Ht|Ht].
        -- apply elem_of_prune in Ht as [_ Ht]. exact (Hle _ _ _ Hin Ht).
        -- apply list_elem_of_singleton in Ht as ->. lia.
      * destruct (checkRateLimit_denied _ _ _ _ _ _ Hrun)
          as (cd & Hind & _ & E & _ & Hpre & Hrest).
        destruct (decide (q = p)) as [->|Hqp].
        { rewrite E in Ht. apply elem_of_prune in Ht as [_ Ht].
          exact (Hle _ _ _ Hind Ht). }
        destruct (decide (q ∈ (tiers_before RATE_LIMITS p).*1)) as [Hb|Hb].
        -- apply (tiers_before_elem _ _ _ c RATE_LIMITS_NoDup Hin) in Hb.
           destruct (Hpre q c Hb) as [Eq _]. rewrite Eq in Ht.
           apply elem_of_prune in Ht as [_ Ht]. exact (Hle _ _ _ Hin Ht).
        -- rewrite (Hrest q Hqp Hb) in Ht. exact (Hle _ _ _ Hin Ht).
    + intros q c t Hin Ht.
      rewrite recorded_cleanupOldEntries, maxWindow_RATE_LIMITS in Ht. cbn in Ht.
      apply elem_of_prune in Ht as [_ Ht]. exact (Hle _ _ _ Hin Ht).
Qed.

Lemma prune_bounds_witness :
  (∀ l' r q c t,
     checkRateLimit alice 120000 ledger_one_call = (l', r) → (q, c) ∈ RATE_LIMITS →
     pruned_in_call r q → t ∈ recorded l' alice q →
     120000 - window c < t)
  ∧ (∀ q c t,
       (q, c) ∈ RATE_LIMITS →
       t ∈ recorded (cleanupOldEntries 120000 ledger_one_call) alice q →
       120000 - 24 * 60 * 60 * 1000 < t)
  ∧ (∀ l' r q c t,
       checkRateLimit alice 120000 ledger_one_call = (l', r) → (q, c) ∈ RATE_LIMITS →
       t ∈ recorded l' alice q → t ≤ 120000)
  ∧ (∀ q c t,
       (q, c) ∈ RATE_LIMITS →
       t ∈ recorded (cleanupOldEntries 120000 ledger_one_call) alice q →
       t ≤ 120000).
Proof.
  assert (reachable_plainly ledger_one_call) as Hl.
  { apply (plainly_check alice 0 ∅); [reflexivity | apply plainly_empty]. }
  destruct (prune_bounds alice 120000 ledger_one_call) as (Hcheck & Hsweep & Hup).
  split; [exact Hcheck|]. split; [exact (Hsweep Hl)|].
  apply (Hup Hl). apply (bool_decide_unpack _). vm_compute. reflexivity.
Defined.

(** ** C4: a denial records nothing *)

(** C4. When [checkRateLimit] denies, every array of the identity is
    afterwards either what it was or what pruning made of it, hence a
    subsequence of what it was: the call's timestamp is appended
    nowhere, and each tier's array pruned after the call is its array
    pruned before the call. When the minute tier denies, the hour and
    day arrays are exactly what they were. *)
Theorem denial_records_nothing ip now l l' p lim :
  checkRateLimit ip now l = (l', Denied p lim) →
  (∀ q,
     (recorded l' ip q = recorded l ip q
      ∨ ∃ c, (q, c) ∈ RATE_LIMITS
             ∧ recorded l' ip q = prune now (window c) (recorded l ip q))
     ∧ recorded l' ip q `sublist_of` recorded l ip q
     ∧ (length (recorded l' ip q) ≤ length (recorded l ip q))%nat)
  ∧ (∀ q c, (q, c) ∈ RATE_LIMITS →
       prune now (window c) (recorded l' ip q)
       = prune now (window c) (recorded l ip q))
  ∧ (p = "minute"%string →
     recorded l' ip "hour" = recorded l ip "hour"
     ∧ recorded l' ip "day" = recorded l ip "day").
Proof.
  intros Hrun.
  destruct (checkRateLimit_denied _ _ _ _ _ _ Hrun)
    as (c & Hin & _ & E & _ & Hpre & Hrest).
  assert (∀ q, recorded l' ip q = recorded l ip q
      ∨ ∃ c, (q, c) ∈ RATE_LIMITS
             ∧ recorded l' ip q = prune now (window c) (recorded l ip q)) as Hcase.
  { intros q. destruct (decide (q = p)) as [->|Hqp]; [right; eauto|].
    destruct (decide (q ∈ (tiers_before RATE_LIMITS p).*1)) as [Hb|Hb].
    - apply list_elem_of_fmap in Hb as ([q' cq] & Hq' & Hb). cbn in Hq'. subst q'.
      right. exists cq. split; [by eapply tiers_before_subset|].
      by destruct (Hpre q cq Hb).
    - left. by apply Hrest. }
  split_and!.
  - intros q. split; [done|].
    destruct (Hcase q) as [->|(cq & _ & ->)].
    + done.
    + split; [apply prune_sublist | apply length_prune].
  - intros q cq Hq. destruct (Hcase q) as [->|(cq' & Hq' & ->)]; [done|].
    rewrite (tier_config_unique _ _ _ _ RATE_LIMITS_NoDup Hq Hq').
    apply prune_prune.
  - intros ->. split; (apply Hrest; [done | cbn; apply not_elem_of_nil]).
Qed.

Lemma denial_records_nothing_witness :
  (∀ q,
     (recorded (checkRateLimit alice 0 ledger_ten_calls).1 alice q
        = recorded ledger_ten_calls alice q
      ∨ ∃ c, (q, c) ∈ RATE_LIMITS
             ∧ recorded (checkRateLimit alice 0 ledger_ten_calls).1 alice q
               = prune 0 (window c) (recorded ledger_ten_calls alice q))
     ∧ recorded (checkRateLimit alice 0 ledger_ten_calls).1 alice q
         `sublist_of` recorded ledger_ten_calls alice q
     ∧ (length (recorded (checkRateLimit alice 0 ledger_ten_calls).1 alice q)
        ≤ length (recorded ledger_ten_calls alice q))%nat)
  ∧ (∀ q c, (q, c) ∈ RATE_LIMITS →
       prune 0 (window c) (recorded (checkRateLimit alice 0 ledger_ten_calls).1 alice q)
       = prune 0 (window c) (recorded ledger_ten_calls alice q))
  ∧ ("minute"%string = "minute"%string →
     recorded (checkRateLimit alice 0 ledger_ten_calls).1 alice "hour"
       = recorded ledger_ten_calls alice "hour"
     ∧ recorded (checkRateLimit alice 0 ledger_ten_calls).1 alice "day"
       = recorded ledger_ten_calls alice "day").
Proof.
  apply (denial_records_nothing alice 0 ledger_ten_calls _ "minute" 10).
  vm_compute. reflexivity.
Defined.

(** ** C5: the count at a denial *)

(** C5. In every ledger the two operations can reach from the empty
    one, a denial leaves the denying tier's array, pruned by the call,
    holding exactly [max] timestamps of that tier. *)
Theorem denial_count_is_max ip now l l' p lim :
  reachable l →
  checkRateLimit ip now l = (l', Denied p lim) →
  ∃ c, (p, c) ∈ RATE_LIMITS ∧ lim = max c
       ∧ recorded l' ip p = prune now (window c) (recorded l ip p)
       ∧ Z.of_nat (length (recorded l' ip p)) = max c.
Proof.
  intros Hreach Hrun.
  destruct (checkRateLimit_denied _ _ _ _ _ _ Hrun)
    as (c & Hin & -> & E & Hge & _ & _).
  exists c. split_and!; try done.
  pose proof (reachable_within_limits l Hreach ip p c Hin) as Hold.
  pose proof (length_prune now (window c) (recorded l ip p)) as Hle.
  rewrite E in Hge |- *. lia.
Qed.

Lemma denial_count_is_max_witness :
  ∃ c, ("minute"%string, c) ∈ RATE_LIMITS ∧ 10 = max c
       ∧ recorded (checkRateLimit alice 0 ledger_ten_calls).1 alice "minute"
         = prune 0 (window c) (recorded ledger_ten_calls alice "minute")
       ∧ Z.of_nat (length
           (recorded (checkRateLimit alice 0 ledger_ten_calls).1 alice "minute"))
         = max c.
Proof.
  apply (denial_count_is_max alice 0 ledger_ten_calls).
  - apply reachable_run_checks, reachable_empty.
  - vm_compute. reflexivity.
Defined.

(** ** C6: exhausting a tier *)

Lemma tiers_trichotomy (limits : list (string * RateLimit)) p q :
  p ∈ limits.*1 → q ∈ limits.*1 →
  p = q ∨ p ∈ (tiers_before limits q).*1 ∨ q ∈ (tiers_before limits p).*1.
Proof.
  induction limits as [|[r cr] rest IH]; cbn; intros Hp Hq.
  { by apply elem_of_nil in Hp. }
  destruct (decide (r = q)) as [Erq|Hrq]; destruct (decide (r = p)) as [Erp|Hrp];
    cbn.
  - left. congruence.
  - right; right. subst r. left.
  - right; left. subst r. left.
  - apply elem_of_cons in Hp as [->|Hp]; [done|].
    apply elem_of_cons in Hq as [->|Hq]; [done|].
    destruct (IH Hp Hq) as [?|[?|?]]; [by left | right; left | right; right];
      by right.
Qed.

Lemma RATE_LIMITS_ordered p c q cq :
  (p, c) ∈ RATE_LIMITS → (q, cq) ∈ RATE_LIMITS →
  q ∉ (tiers_before RATE_LIMITS p).*1 →
  window c ≤ window cq ∧ max c ≤ max cq.
Proof.
  intros Hp Hq Hnot.
  assert (Forall (λ pc, Forall (λ qc,
            qc.1 ∈ (tiers_before RATE_LIMITS pc.1).*1
            ∨ (window pc.2 ≤ window qc.2 ∧ max pc.2 ≤ max qc.2))
            RATE_LIMITS) RATE_LIMITS) as Hall
    by (by apply (bool_decide_unpack _)).
  rewrite Forall_forall in Hall. specialize (Hall _ Hp).
  rewrite Forall_forall in Hall. by destruct (Hall _ Hq).
Qed.

Lemma checkRateLimit_allowed_intro ip now l :
  (∀ p c, (p, c) ∈ RATE_LIMITS →
     Z.of_nat (length (prune now (window c) (recorded l ip p))) < max c) →
  ∃ l', checkRateLimit ip now l = (l', Allowed).
Proof.
  intros Hroom. destruct (checkRateLimit ip now l) as [l' [|pd lim]] eqn:Hrun;
    [by eexists|].
  destruct (checkRateLimit_denied _ _ _ _ _ _ Hrun) as (cd & Hin & _ & E & Hge & _).
  specialize (Hroom pd cd Hin). rewrite E in Hge. lia.
Qed.

Lemma checkRateLimit_denied_intro ip now l p c :
  (p, c) ∈ RATE_LIMITS →
  (∀ q cq, (q, cq) ∈ tiers_before RATE_LIMITS p →
     Z.of_nat (length (prune now (window cq) (recorded l ip q))) < max cq) →
  max c ≤ Z.of_nat (length (prune now (window c) (recorded l ip p))) →
  ∃ l', checkRateLimit ip now l = (l', Denied p (max c)).
Proof.
  intros Hin Hroom Hfull.
  destruct (checkRateLimit ip now l) as [l' [|pd lim]] eqn:Hrun.
  { destruct (checkRateLimit_allowed _ _ _ _ Hrun p c Hin) as [_ Hlt]. lia. }
  destruct (checkRateLimit_denied _ _ _ _ _ _ Hrun)
    as (cd & Hind & -> & E & Hge & Hpre & _).
  assert (p = pd) as <-.
  { destruct (tiers_trichotomy RATE_LIMITS p pd) as [?|[Hb|Hb]]; [| |done| |].
    - apply list_elem_of_fmap. by exists (p, c).
    - apply list_elem_of_fmap. by exists (pd, cd).
    - apply (tiers_before_elem _ _ _ c RATE_LIMITS_NoDup Hin) in Hb.
      destruct (Hpre p c Hb) as [Ep Hlt]. rewrite Ep in Hlt. lia.
    - apply (tiers_before_elem _ _ _ cd RATE_LIMITS_NoDup Hind) in Hb.
      specialize (Hroom pd cd Hb). rewrite E in Hge. lia. }
  rewrite (tier_config_unique _ _ _ _ RATE_LIMITS_NoDup Hin Hind). by eexists.
Qed.

Section Exhaustion.
Variables (ip p : string) (c : RateLimit) (times : list Z) (t : Z).
Hypothesis Htier : (p, c) ∈ RATE_LIMITS.
Hypothesis Hcount : Z.of_nat (length times) = max c.
(** Each call finds every earlier call inside this tier's window. *)
Hypothesis Hwindow : ∀ earlier x later,
  times ++ [t] = earlier ++ x :: later →
  Forall (λ y, x - y < window c) earlier.
(** No tier declared before this one is at its limit at any call. *)
Hypothesis Hearlier : ∀ q cq earlier x later,
  (q, cq) ∈ tiers_before RATE_LIMITS p →
  times ++ [t] = earlier ++ x :: later →
  Z.of_nat (length (prune x (window cq) earlier)) < max cq.

Lemma holds_empty : holds ip p ∅ [].
Proof.
  intros q cq _. unfold recorded, timestamps.
  rewrite lookup_empty. cbn. by rewrite lookup_empty.
Qed.

Lemma room_in_tier l seen x later q cq :
  holds ip p l seen → times ++ [t] = seen ++ x :: later →
  (Z.of_nat (length seen) < max c) → (q, cq) ∈ RATE_LIMITS →
  Z.of_nat (length (prune x (window cq) (recorded l ip q))) < max cq.
Proof using Htier Hearlier.
  intros Hl Hsplit Hfew Hq. destruct (Hl q cq Hq) as [Hsub Hall].
  destruct (decide (q ∈ (tiers_before RATE_LIMITS p).*1)) as [Hb|Hb].
  - apply (tiers_before_elem _ _ _ cq RATE_LIMITS_NoDup Hq) in Hb.
    pose proof (Hearlier q cq seen x later Hb Hsplit) as Hlt.
    pose proof (sublist_length _ _ (prune_sublist_mono x (window cq) _ _ Hsub)).
    lia.
  - rewrite (Hall Hb).
    pose proof (length_prune x (window cq) seen).
    destruct (RATE_LIMITS_ordered p c q cq Htier Hq Hb). lia.
Qed.

Lemma holds_step l seen x later :
  holds ip p l seen → times ++ [t] = seen ++ x :: later →
  (Z.of_nat (length seen) < max c) →
  ∃ l', checkRateLimit ip x l = (l', Allowed) ∧ holds ip p l' (seen ++ [x]).
Proof using Htier Hwindow Hearlier.
  intros Hl Hsplit Hfew.
  destruct (checkRateLimit_allowed_intro ip x l) as [l' Hrun].
  { intros q cq Hq. by eapply room_in_tier. }
  exists l'. split; [done|]. intros q cq Hq.
  destruct (checkRateLimit_allowed _ _ _ _ Hrun q cq Hq) as [-> _].
  destruct (Hl q cq Hq) as [Hsub Hall]. split.
  - apply sublist_app; [|done]. etrans; [apply prune_sublist | done].
  - intros Hb. rewrite (Hall Hb). f_equal. apply prune_all.
    destruct (RATE_LIMITS_ordered p c q cq Htier Hq Hb) as [Hw _].
    eapply Forall_impl; [by eapply Hwindow|]. cbn. intros y Hy. lia.
Qed.

Lemma run_checks_allowed rest : ∀ seen l,
  seen ++ rest = times → holds ip p l seen →
  ∃ l', run_checks ip rest l = (l', replicate (length rest) Allowed)
        ∧ holds ip p l' times.
Proof using Htier Hcount Hwindow Hearlier.
  induction rest as [|x rest IH]; intros seen l Hsplit Hl.
  { rewrite app_nil_r in Hsplit. subst seen. by exists l. }
  destruct (holds_step l seen x (rest ++ [t])) as (l1 & Hrun & Hl1); [done | | |].
  { rewrite <- Hsplit. by rewrite <- app_assoc. }
  { rewrite <- Hcount, <- Hsplit, length_app. cbn. lia. }
  destruct (IH (seen ++ [x]) l1) as (l' & Hrest & Hl'); [|done|].
  { by rewrite <- app_assoc. }
  exists l'. cbn. by rewrite Hrun, Hrest.
Qed.

Lemma exhaust_tier :
  ∃ l l', run_checks ip times ∅ = (l, replicate (length times) Allowed)
          ∧ checkRateLimit ip t l = (l', Denied p (max c)).
Proof using Htier Hcount Hwindow Hearlier.
  destruct (run_checks_allowed times [] ∅) as (l & Hrun & Hl);
    [done | apply holds_empty |].
  destruct (checkRateLimit_denied_intro ip t l p c Htier) as [l' Hdeny].
  - intros q cq Hb.
    assert ((q, cq) ∈ RATE_LIMITS) as Hq by (by eapply tiers_before_subset).
    destruct (Hl q cq Hq) as [Hsub _].
    pose proof (Hearlier q cq times t [] Hb eq_refl) as Hlt.
    pose proof (sublist_length _ _ (prune_sublist_mono t (window cq) _ _ Hsub)).
    lia.
  - destruct (Hl p c Htier) as [_ Hall]. rewrite Hall.
    + rewrite prune_all; [lia|]. by apply (Hwindow times t []).
    + intros (x & Hx1 & Hx2)%list_elem_of_fmap. clear -Hx1 Hx2.
      induction RATE_LIMITS as [|[r cr] rest IH]; cbn in Hx2.
      { by apply elem_of_nil in Hx2. }
      case_decide as Hr; [by apply elem_of_nil in Hx2|].
      apply elem_of_cons in Hx2 as [->|Hx2]; [by cbn in Hx1 | auto].
  - by exists l, l'.
Qed.
End Exhaustion.

Lemma at_each_call_split check rest : ∀ seen earlier now later,
  at_each_call check seen rest = true →
  rest = earlier ++ now :: later →
  check (seen ++ earlier) now = true.
Proof.
  induction rest as [|x rest IH]; intros seen earlier now later Hall Hsplit.
  { by destruct earlier. }
  cbn in Hall. apply andb_true_iff in Hall as [Hx Hall].
  destruct earlier as [|y earlier]; cbn in Hsplit.
  - injection Hsplit as -> _. by rewrite app_nil_r.
  - injection Hsplit as -> Hsplit.
    specialize (IH _ _ _ _ Hall Hsplit). by rewrite <- app_assoc in IH.
Qed.

Lemma limit_of_elem p c : (p, c) ∈ RATE_LIMITS → limit_of RATE_LIMITS p = Some c.
Proof.
  intros Htier. pose proof RATE_LIMITS_NoDup as Hnd.
  induction RATE_LIMITS as [|[r cr] rest IH]; [by apply elem_of_nil in Htier|].
  cbn in Hnd. apply NoDup_cons in Hnd as [Hfresh Hnd]. cbn.
  apply elem_of_cons in Htier as [[= -> ->]|Htier].
  - by rewrite decide_True.
  - rewrite decide_False; [by apply IH|].
    intros ->. apply Hfresh, list_elem_of_fmap. by exists (p, c).
Qed.

Lemma tier_exhausted ip p c times t :
  (p, c) ∈ RATE_LIMITS →
  Z.of_nat (length times) = max c →
  at_each_call (within_window (window c)) [] (times ++ [t]) = true →
  at_each_call (room_in (tiers_before RATE_LIMITS p)) [] (times ++ [t]) = true →
  ∃ l l', run_checks ip times ∅ = (l, replicate (length times) Allowed)
          ∧ checkRateLimit ip t l = (l', Denied p (max c)).
Proof.
  intros Htier Hcount Hwin Hroom.
  apply (exhaust_tier ip p c times t Htier Hcount).
  - intros earlier x later Hsplit.
    pose proof (at_each_call_split _ _ [] _ _ _ Hwin Hsplit) as Hx. cbn in Hx.
    unfold within_window in Hx. rewrite forallb_forall in Hx.
    apply Forall_forall. intros y Hy.
    apply list_elem_of_In, Hx, bool_decide_eq_true in Hy. done.
  - intros q cq earlier x later Hq Hsplit.
    pose proof (at_each_call_split _ _ [] _ _ _ Hroom Hsplit) as Hx. cbn in Hx.
    unfold room_in in Hx. rewrite forallb_forall in Hx.
    apply list_elem_of_In, Hx, bool_decide_eq_true in Hq. done.
Qed.

(** Fifty calls seven seconds apart never fill the minute tier and
    exhaust the hour tier. *)
Example hour_tier_exhausted :
  ∃ l l',
    run_checks alice ((λ i, 7000 * Z.of_nat i) <$> seq 0 50) ∅
      = (l, replicate 50 Allowed)
    ∧ checkRateLimit alice 350000 l = (l', Denied "hour" 50).
Proof.
  refine (tier_exhausted alice "hour" {| max := 50; window := 60 * 60 * 1000 |}
            ((λ i, 7000 * Z.of_nat i) <$> seq 0 50) 350000 _ _ _ _).
  - right. left.
  - reflexivity.
  - vm_compute. reflexivity.
  - vm_compute. reflexivity.
Qed.

(** C6, as stated for any tier, fails for the hour tier: of 50 calls in
    the same millisecond from an empty ledger the first 50 are not all
    allowed; the 11th is denied by the minute tier. *)
Lemma fifty_calls_stop_at_minute :
  ¬ ((run_checks alice (replicate 50 0) ∅).2 = replicate 50 Allowed)
  ∧ (run_checks alice (replicate 50 0) ∅).2 !! 10%nat
    = Some (Denied "minute" 10).
Proof.
  split; [|by vm_compute].
  intros H. apply (f_equal (λ rs, rs !! 10%nat)) in H.
  vm_compute in H. discriminate H.
Qed.

(** C6 (amended). From an empty ledger, [max] calls of one identity
    followed by one more, each call less than the tier's window after
    every earlier one, are allowed [max] times and then denied by that
    tier, provided no tier declared before it is at its limit at any of
    the calls; the handler answers the denied call 429 with
    [window / 1000] as [retryAfter]. The minute tier is declared first,
    so for it the proviso is empty: ten calls are allowed and the
    eleventh is denied with period minute and [retryAfter] 60. *)
Theorem exhausting_a_tier ip p c times t :
  (p, c) ∈ RATE_LIMITS →
  Z.of_nat (length times) = max c →
  at_each_call (within_window (window c)) [] (times ++ [t]) = true →
  at_each_call (room_in (tiers_before RATE_LIMITS p)) [] (times ++ [t]) = true →
  ∃ l l', run_checks ip times ∅ = (l, replicate (length times) Allowed)
          ∧ checkRateLimit ip t l = (l', Denied p (max c))
          ∧ (∀ event env st,
               httpMethod event = "POST"%string → client_ip event = ip →
               now_check env = t → swept env st = l →
               (handler event env st).2
               = {| statusCode := 429;
                    response_body :=
                      RateLimitBody (rate_limit_message (max c) p)
                                    (window c `div` 1000) |})
          ∧ (p = "minute"%string → max c = 10 ∧ window c `div` 1000 = 60).
Proof.
  intros Htier Hcount Hwin Hroom.
  destruct (tier_exhausted ip p c times t Htier Hcount Hwin Hroom)
    as (l & l' & Hrun & Hdeny).
  exists l, l'. split_and!; [done | done | |].
  - intros event env st Hpost Hip Hnow Hswept.
    rewrite handler_post by done. rewrite Hip, Hnow, Hswept, Hdeny. cbn.
    unfold retryAfter_of. by rewrite (limit_of_elem _ _ Htier).
  - intros ->.
    assert (c = {| max := 10; window := 60 * 1000 |}) as ->; [|done].
    eapply tier_config_unique; [apply RATE_LIMITS_NoDup | done | left].
Qed.

Lemma exhausting_a_tier_witness :
  ∃ l l',
    run_checks alice [0; 100; 200; 300; 400; 500; 600; 700; 800; 900] ∅
      = (l, replicate 10 Allowed)
    ∧ checkRateLimit alice 1000 l = (l', Denied "minute" 10)
    ∧ (∀ event env st,
         httpMethod event = "POST"%string → client_ip event = alice →
         now_check env = 1000 → swept env st = l →
         (handler event env st).2
         = {| statusCode := 429;
              response_body :=
                RateLimitBody (rate_limit_message 10 "minute") 60 |})
    ∧ ("minute"%string = "minute"%string → 10 = 10 ∧ 60000 `div` 1000 = 60).
Proof.
  apply (exhausting_a_tier alice "minute" {| max := 10; window := 60 * 1000 |}
           [0; 100; 200; 300; 400; 500; 600; 700; 800; 900] 1000).
  - left.
  - reflexivity.
  - vm_compute. reflexivity.
  - vm_compute. reflexivity.
Defined.

(** ** The handler on a POST: inside try and catch *)

(** Inside [try]/[catch], [logUsage] runs once, with [success] on the
    200 response only; or it runs twice without [success], when the
    string conversion of [data.error] throws after the first run and the
    [catch] block logs again. *)
Lemma try_catch_logs event env ip u :
  (∃ success response,
     try_catch event env ip u = (logUsage ip success u, response)
     ∧ (if success then statusCode response = 200
        else statusCode response ∈ [400; 500; 502]))
  ∨ try_catch event env ip u =
      (logUsage ip false (logUsage ip false u),
       {| statusCode := 500; response_body := ErrorBody "Internal server error" |}).
Proof.
  unfold try_catch, try_block.
  repeat (case_match; simplify_eq);
    first [ by right
          | by (left; exists true; eexists; split; [done | done])
          | (left; exists false; eexists; split; [done|]; cbn; set_solver) ].
Qed.

Lemma try_catch_forwarded event env ip u payload :
  forwards event env = Some payload →
  try_catch event env ip u =
    match fetch env payload with
    | FetchThrows | FetchJson JNull =>
        (logUsage ip false u,
         {| statusCode := 500; response_body := ErrorBody "Internal server error" |})
    | FetchJson data =>
        if truthy (prop (Some data) "error") then
          if ToString_throws (default JNull (prop (Some data) "error")) then
            (logUsage ip false (logUsage ip false u),
             {| statusCode := 500;
                response_body := ErrorBody "Internal server error" |})
          else
            (logUsage ip false u,
             {| statusCode := 502; response_body := ErrorBody "AI service error" |})
        else
          (logUsage ip true u,
           {| statusCode := 200; response_body := DataBody data |})
    end.
Proof.
  unfold forwards, try_catch, try_block. intros Hfw.
  repeat (case_match; simplify_eq); done.
Qed.

Lemma try_catch_not_forwarded event env ip u :
  forwards event env = None →
  ∃ response,
    try_catch event env ip u = (logUsage ip false u, response)
    ∧ statusCode response ∈ [400; 500].
Proof.
  unfold forwards, try_catch, try_block. intros Hfw.
  repeat (case_match; simplify_eq); eexists; (split; [done|]); cbn; set_solver.
Qed.

Lemma unprintable_error_failed r : unprintable_error r = true → upstream_failed r = true.
Proof.
  unfold unprintable_error, upstream_failed.
  destruct r as [|data]; [done|]. intros [H _]%andb_prop. by destruct data.
Qed.

(** ** C7: the counters across one invocation *)

(** C7. The code breaks the claim on one path. The first POST of a
    client, admitted and forwarded, is answered by the upstream service
    with [{"error": {"toString": null}}]: a downstream failure. The 502
    branch runs [logUsage] and then converts [data.error] to a string,
    which throws; the [catch] block runs [logUsage] again. The request
    ends with 500 and [totalRequests] two higher, not one;
    [rateLimitHits] stays. *)
Theorem unprintable_error_counted_twice :
  httpMethod (post alice (with_prompt "hi")) = "POST"%string
  ∧ (checkRateLimit alice 0 (swept answers_unprintable (initial_state 0))).2 = Allowed
  ∧ forwards (post alice (with_prompt "hi")) answers_unprintable
    = Some (JObj [("inputs"%string, JStr "hi")])
  ∧ upstream_failed (fetch answers_unprintable (JObj [("inputs"%string, JStr "hi")]))
    = true
  ∧ statusCode
      (handler (post alice (with_prompt "hi")) answers_unprintable (initial_state 0)).2
    = 500
  ∧ totalRequests
      (usageStats
         (handler (post alice (with_prompt "hi")) answers_unprintable
                  (initial_state 0)).1)
    = totalRequests (usageStats (initial_state 0)) + 2
  ∧ rateLimitHits
      (usageStats
         (handler (post alice (with_prompt "hi")) answers_unprintable
                  (initial_state 0)).1)
    = rateLimitHits (usageStats (initial_state 0)).
Proof. by vm_compute. Qed.

(** ** C8: a failed downstream call *)

(** C8. The code breaks the claim on the same path. For the error
    payload [{"error": {"toString": null}}] in an admitted request the
    handler performs two telemetry updates with [success = false], not
    one: [totalRequests] and [errors] are each two higher, and the
    answer is 500. The ledger is as [checkRateLimit] recorded the
    admission. *)
Theorem unprintable_error_logged_twice :
  checkRateLimit alice 0 (swept answers_unprintable (initial_state 0))
  = (ledger_one_call, Allowed)
  ∧ unprintable_error (fetch answers_unprintable (JObj [("inputs"%string, JStr "hi")]))
    = true
  ∧ handler (post alice (with_prompt "hi")) answers_unprintable (initial_state 0)
    = ({| requestCounts := ledger_one_call;
          usageStats :=
            logUsage alice false
              (logUsage alice false (usageStats (initial_state 0))) |},
       {| statusCode := 500; response_body := ErrorBody "Internal server error" |})
  ∧ totalRequests
      (logUsage alice false (logUsage alice false (usageStats (initial_state 0))))
    = totalRequests (usageStats (initial_state 0)) + 2
  ∧ errors
      (logUsage alice false (logUsage alice false (usageStats (initial_state 0))))
    = errors (usageStats (initial_state 0)) + 2.
Proof. by vm_compute. Qed.

(** ** C1: an admitted request with an invalid payload *)

(** C1, as stated, fails: the first POST of a client, with a prompt of
    501 characters, is answered 400 "Prompt too long (max 500
    characters)", and each tier's array for the client has grown from
    none to one timestamp. *)
Lemma rejected_prompt_is_recorded :
  let st := initial_state 0 in
  let '(st', response) := handler (post alice (with_prompt long_prompt)) (env_at 0) st in
  response = {| statusCode := 400;
                response_body := ErrorBody "Prompt too long (max 500 characters)" |}
  ∧ ¬ (∀ q c, (q, c) ∈ RATE_LIMITS →
         length (recorded (requestCounts st') alice q)
         = length (recorded (requestCounts st) alice q)).
Proof.
  vm_compute. split; [reflexivity|].
  intros H. specialize (H "minute"%string {| max := 10; window := 60000 |}).
  discriminate H. left.
Qed.

(** C1 (amended). A POST that the rate limiter admits and whose payload
    is rejected (a prompt longer than 500 characters, or a valid prompt
    with more than 10 past user inputs) is answered 400 with the
    corresponding message, counts as one failed request, and consumes
    quota: every tier's array for the identity is its pruned array with
    the call's timestamp appended. *)
Theorem invalid_payload_consumes_quota event env st l' fields message :
  httpMethod event = "POST"%string →
  checkRateLimit (client_ip event) (now_check env) (swept env st) = (l', Allowed) →
  body event = Parsed (JObj fields) →
  InvalidPayload fields message →
  handler event env st =
    ({| requestCounts := l';
        usageStats := logUsage (client_ip event) false (usageStats st) |},
     {| statusCode := 400; response_body := ErrorBody message |})
  ∧ ∀ q c, (q, c) ∈ RATE_LIMITS →
      recorded l' (client_ip event) q
      = prune (now_check env) (window c)
          (recorded (swept env st) (client_ip event) q) ++ [now_check env]
      ∧ length (recorded l' (client_ip event) q)
        = S (length (prune (now_check env) (window c)
                       (recorded (swept env st) (client_ip event) q))).
Proof.
  intros Hpost Hcheck Hbody Hbad. split.
  - rewrite handler_post by done. rewrite Hcheck.
    unfold try_catch, try_block, parsed_body. rewrite Hbody. cbn.
    destruct Hbad as [s Hprompt Hlong | s cfields items Hprompt Hne Hshort Hconv Hpast Hmany].
    + rewrite Hprompt. cbn.
      destruct s as [|a s]; [cbn in Hlong; lia|]. cbn.
      rewrite decide_True; [done|]. cbn in Hlong |- *. lia.
    + rewrite Hprompt. cbn.
      rewrite bool_decide_eq_false_2 by done. cbn.
      rewrite decide_False by lia.
      unfold conversation_invalid. rewrite Hconv. cbn. rewrite Hpast. cbn.
      rewrite (bool_decide_eq_true_2 (10 < Z.of_nat (length items))) by done.
      by rewrite orb_true_r.
  - intros q c Hq.
    destruct (checkRateLimit_allowed _ _ _ _ Hcheck q c Hq) as [E _].
    rewrite E. split; [done|]. rewrite length_app. cbn. lia.
Qed.

Lemma invalid_payload_consumes_quota_witness :
  handler (post alice with_long_history) (env_at 0) (initial_state 0) =
    ({| requestCounts := ledger_one_call;
        usageStats := logUsage (client_ip (post alice with_long_history)) false
                        (usageStats (initial_state 0)) |},
     {| statusCode := 400;
        response_body := ErrorBody "Invalid conversation history" |})
  ∧ ∀ q c, (q, c) ∈ RATE_LIMITS →
      recorded ledger_one_call (client_ip (post alice with_long_history)) q
      = prune (now_check (env_at 0)) (window c)
          (recorded (swept (env_at 0) (initial_state 0))
             (client_ip (post alice with_long_history)) q)
        ++ [now_check (env_at 0)]
      ∧ length (recorded ledger_one_call
                  (client_ip (post alice with_long_history)) q)
        = S (length (prune (now_check (env_at 0)) (window c)
                       (recorded (swept (env_at 0) (initial_state 0))
                          (client_ip (post alice with_long_history)) q))).
Proof.
  apply (invalid_payload_consumes_quota (post alice with_long_history) (env_at 0)
           (initial_state 0) ledger_one_call
           [("prompt"%string, JStr "hello");
            ("conversation"%string,
             JObj [("past_user_inputs"%string, eleven_inputs);
                   ("generated_responses"%string, JArr [])])]).
  - reflexivity.
  - vm_compute. reflexivity.
  - reflexivity.
  - apply (HistoryTooLong _ "hello"
             [("past_user_inputs"%string, eleven_inputs);
              ("generated_responses"%string, JArr [])]
             (replicate 11 (JStr "hi"))).
    + reflexivity.
    + discriminate.
    + vm_compute. discriminate.
    + reflexivity.
    + reflexivity.
    + vm_compute. reflexivity.
Defined.

(** ** C10: the empty prompt *)

(** C10, as stated for every POST, fails once the client is at its
    limit: the eleventh POST within the minute, with the prompt "", is
    answered 429, not 400. *)
Lemma empty_prompt_rate_limited :
  statusCode (handler (post alice (with_prompt "")) (env_at 0)
                state_after_ten_posts).2 = 429
  ∧ ¬ (handler (post alice (with_prompt "")) (env_at 0) state_after_ten_posts).2
      = {| statusCode := 400;
           response_body := ErrorBody "Invalid or missing prompt" |}.
Proof.
  split; [by vm_compute|]. intros H. apply (f_equal statusCode) in H.
  vm_compute in H. discriminate H.
Qed.

(** C10 (amended). A POST that the rate limiter admits and whose body
    parses to an object with the prompt "" is answered 400 "Invalid or
    missing prompt", and counted as one failed request: a prompt that is
    present and a string is still refused when it is falsy. *)
Theorem empty_prompt_rejected event env st l' fields :
  httpMethod event = "POST"%string →
  checkRateLimit (client_ip event) (now_check env) (swept env st) = (l', Allowed) →
  body event = Parsed (JObj fields) →
  assoc fields "prompt" = Some (JStr "") →
  typeof_string (prop (Some (JObj fields)) "prompt") = true
  ∧ handler event env st =
      ({| requestCounts := l';
          usageStats := logUsage (client_ip event) false (usageStats st) |},
       {| statusCode := 400;
          response_body := ErrorBody "Invalid or missing prompt" |}).
Proof.
  intros Hpost Hcheck Hbody Hprompt. split; [cbn; by rewrite Hprompt|].
  rewrite handler_post by done. rewrite Hcheck.
  unfold try_catch, try_block, parsed_body. rewrite Hbody. cbn.
  by rewrite Hprompt.
Qed.

Lemma empty_prompt_rejected_witness :
  typeof_string (prop (Some (JObj [("prompt"%string, JStr "")])) "prompt") = true
  ∧ handler (post alice (with_prompt "")) (env_at 0) (initial_state 0) =
      ({| requestCounts := ledger_one_call;
          usageStats := logUsage (client_ip (post alice (with_prompt ""))) false
                          (usageStats (initial_state 0)) |},
       {| statusCode := 400;
          response_body := ErrorBody "Invalid or missing prompt" |}).
Proof.
  apply (empty_prompt_rejected (post alice (with_prompt "")) (env_at 0)
           (initial_state 0) ledger_one_call [("prompt"%string, JStr "")]).
  - reflexivity.
  - vm_compute. reflexivity.
  - reflexivity.
  - reflexivity.
Defined.

(** ** C9: the snapshot is a read *)

(** C9. Two GETs of the statistics in a row leave the state as it was
    and answer 200 with snapshots that agree on every field but the two
    derived from the uptime; when both read the same clock the two
    responses are identical. *)
Theorem snapshot_twice event env1 env2 st :
  httpMethod event = "GET"%string →
  includes (path event) "/stats" = true →
  ∃ s1 s2,
    handler event env1 st
      = (st, {| statusCode := 200; response_body := StatsBody s1 |})
    ∧ handler event env2 (handler event env1 st).1
      = (st, {| statusCode := 200; response_body := StatsBody s2 |})
    ∧ s1 = getUsageStats (now_stats env1) st
    ∧ s2 = getUsageStats (now_stats env2) st
    ∧ stats_totalRequests s1 = stats_totalRequests s2
    ∧ stats_uniqueIPs s1 = stats_uniqueIPs s2
    ∧ stats_errors s1 = stats_errors s2
    ∧ stats_rateLimitHits s1 = stats_rateLimitHits s2
    ∧ stats_activeIPs s1 = stats_activeIPs s2
    ∧ (now_stats env1 = now_stats env2 → s1 = s2).
Proof.
  intros Hget Hpath.
  assert (∀ env, handler event env st
            = (st, {| statusCode := 200;
                      response_body := StatsBody (getUsageStats (now_stats env) st) |}))
    as Hread.
  { intros env. unfold handler. rewrite Hget, Hpath. done. }
  exists (getUsageStats (now_stats env1) st), (getUsageStats (now_stats env2) st).
  rewrite (Hread env1). cbn [fst]. rewrite (Hread env2).
  split_and!; try done. by intros ->.
Qed.

Lemma snapshot_twice_witness :
  ∃ s1 s2,
    handler get_stats (env_at 3600000) state_after_ten_posts
      = (state_after_ten_posts,
         {| statusCode := 200; response_body := StatsBody s1 |})
    ∧ handler get_stats (env_at 7200000)
        (handler get_stats (env_at 3600000) state_after_ten_posts).1
      = (state_after_ten_posts,
         {| statusCode := 200; response_body := StatsBody s2 |})
    ∧ s1 = getUsageStats (now_stats (env_at 3600000)) state_after_ten_posts
    ∧ s2 = getUsageStats (now_stats (env_at 7200000)) state_after_ten_posts
    ∧ stats_totalRequests s1 = stats_totalRequests s2
    ∧ stats_uniqueIPs s1 = stats_uniqueIPs s2
    ∧ stats_errors s1 = stats_errors s2
    ∧ stats_rateLimitHits s1 = stats_rateLimitHits s2
    ∧ stats_activeIPs s1 = stats_activeIPs s2
    ∧ (now_stats (env_at 3600000) = now_stats (env_at 7200000) → s1 = s2).
Proof.
  apply (snapshot_twice get_stats (env_at 3600000) (env_at 7200000)
           state_after_ten_posts).
  - reflexivity.
  - vm_compute. reflexivity.
Defined.

(** ** C3: the request rate at start-up *)

Lemma zero_div_positive (eps : float) :
  (0 <? eps)%float = true → ∃ s, Prim2SF (0 / eps) = S754_zero s.
Proof.
  rewrite ltb_spec, div_spec.
  change (Prim2SF 0) with (S754_zero false).
  destruct (Prim2SF eps) as [s|s| |s m e]; cbn; try discriminate; eauto.
Qed.

Lemma div_zero_not_finite (x : float) :
  (x / 0 = nan ∨ x / 0 = infinity ∨ x / 0 = neg_infinity)%float.
Proof.
  assert (Prim2SF (x / 0) = S754_nan
          ∨ Prim2SF (x / 0) = S754_infinity false
          ∨ Prim2SF (x / 0) = S754_infinity true) as Hcases.
  { rewrite div_spec. change (Prim2SF 0) with (S754_zero false).
    destruct (Prim2SF x) as [s|s| |s m e]; cbn; auto; destruct s; auto. }
  destruct Hcases as [H|[H|H]]; [left | right; left | right; right];
    by apply Prim2SF_inj.
Qed.

Example Math_round_ties :
  Math_round 2.5 = 3%float ∧ Math_round (-2.5) = (-2)%float
  ∧ Math_round 0.25 = 0%float ∧ Math_round (-0.25) = neg_zero
  ∧ Math_round nan = nan ∧ Math_round infinity = infinity.
Proof. by vm_compute. Qed.

(** One hour after loading, ten requests make a rate of ten per hour;
    at the instant of loading they make an infinite one. *)
Example requestsPerHour_after_ten_posts :
  stats_requestsPerHour (getUsageStats 3600000 state_after_ten_posts) = 10%float
  ∧ stats_requestsPerHour (getUsageStats 0 state_after_ten_posts) = infinity.
Proof. by vm_compute. Qed.

Lemma uptimeHours_at_start (u : UsageStats) : uptimeHours (startTime u) u = 0%float.
Proof. unfold uptimeHours. by rewrite Z.sub_diag. Qed.

(** C3, as stated, fails: at the instant the module was loaded, with no
    request counted, the code's quotient is NaN, which is not finite
    and is the guarded quotient for no positive eps. *)
Lemma requestsPerHour_unguarded :
  is_finite (stats_requestsPerHour (getUsageStats 0 (initial_state 0))) = false
  ∧ ¬ ∃ eps, (0 <? eps)%float = true
           ∧ stats_requestsPerHour (getUsageStats 0 (initial_state 0))
             = requestsPerUptimeHour_guarded eps 0 (initial_state 0).
Proof.
  split; [by vm_compute|]. intros (eps & Hpos & Heq).
  unfold requestsPerUptimeHour_guarded, float_max in Heq.
  change (uptimeHours 0 (usageStats (initial_state 0))) with 0%float in Heq.
  change (float_of_Z (totalRequests (usageStats (initial_state 0))))
    with 0%float in Heq.
  rewrite Hpos in Heq.
  destruct (zero_div_positive eps Hpos) as [s Hs].
  rewrite <- Heq in Hs. vm_compute in Hs. discriminate Hs.
Qed.

(** C3 (amended). [getUsageStats] divides [totalRequests] by
    [uptimeHours] as it is, without a guard. When the clock equals
    [startTime], [uptimeHours] is 0 and [requestsPerHour] is not a
    finite number: it is NaN when no request has been counted. *)
Theorem requestsPerHour_at_start st :
  let u := usageStats st in
  let stats := getUsageStats (startTime u) st in
  uptimeHours (startTime u) u = 0%float
  ∧ stats_uptimeHours stats = 0%float
  ∧ is_finite (stats_requestsPerHour stats) = false
  ∧ (totalRequests u = 0 → stats_requestsPerHour stats = nan).
Proof.
  cbn zeta. unfold getUsageStats. cbn [stats_uptimeHours stats_requestsPerHour].
  rewrite uptimeHours_at_start. split_and!.
  - done.
  - by vm_compute.
  - destruct (div_zero_not_finite (float_of_Z (totalRequests (usageStats st))))
      as [-> | [-> | ->]]; by vm_compute.
  - intros ->. by vm_compute.
Qed.

Lemma requestsPerHour_at_start_witness :
  let u := usageStats (initial_state 1700000000000) in
  let stats := getUsageStats (startTime u) (initial_state 1700000000000) in
  uptimeHours (startTime u) u = 0%float
  ∧ stats_uptimeHours stats = 0%float
  ∧ is_finite (stats_requestsPerHour stats) = false
  ∧ (totalRequests u = 0 → stats_requestsPerHour stats = nan).
Proof.
  apply (requestsPerHour_at_start (initial_state 1700000000000)).
Defined.

(** * Further properties of the rate limiter *)

(** ** Pruning twice *)

Lemma prune_prune_later now now' w w' arr :
  now' ≤ now → w ≤ w' →
  prune now w (prune now' w' arr) = prune now w arr.
Proof.
  intros Hnow Hw. unfold prune. rewrite list_filter_filter.
  apply list_filter_iff. intros t. lia.
Qed.

Lemma prune_nil_old now w arr :
  Forall (λ t, w ≤ now - t) arr → prune now w arr = [].
Proof.
  induction 1 as [|t arr Ht _ IH]; [done|].
  unfold prune in *. rewrite filter_cons_False by lia. done.
Qed.

Lemma prune_sublist_windows now w1 w2 a b :
  a `sublist_of` b → w1 ≤ w2 → prune now w1 a `sublist_of` prune now w2 b.
Proof.
  intros Hab Hw. etrans; [by apply prune_sublist_mono|].
  rewrite <- (prune_prune_later now now w1 w2 b) by lia. apply prune_sublist.
Qed.

(** ** An identity whose history has lapsed *)

(** X1. In a ledger built by the requests of identities that name no
    property of [Object.prototype], such an identity whose every
    recorded timestamp is at least as old as its tier's window (in
    particular one never seen) is admitted, and every tier's array is
    then the call's timestamp alone. *)
Theorem lapsed_identity_admitted ip now l :
  reachable_plainly l →
  plain ip = true →
  Forall (λ pc, Forall (λ t, window pc.2 ≤ now - t) (recorded l ip pc.1))
         RATE_LIMITS →
  ∃ l', checkRateLimit ip now l = (l', Allowed)
        ∧ ∀ q c, (q, c) ∈ RATE_LIMITS → recorded l' ip q = [now].
Proof.
  intros _ _ Hold. rewrite Forall_forall in Hold.
  assert (∀ q c, (q, c) ∈ RATE_LIMITS →
            prune now (window c) (recorded l ip q) = []) as Hnone.
  { intros q c Hq. apply prune_nil_old. exact (Hold _ Hq). }
  destruct (checkRateLimit_allowed_intro ip now l) as [l' Hrun].
  { intros q c Hq. rewrite (Hnone q c Hq). cbn.
    by apply (RATE_LIMITS_max_pos q c). }
  exists l'. split; [done|]. intros q c Hq.
  destruct (checkRateLimit_allowed _ _ _ _ Hrun q c Hq) as [-> _].
  by rewrite (Hnone q c Hq).
Qed.

Lemma lapsed_identity_admitted_witness :
  ∃ l', checkRateLimit alice 90000000 ledger_ten_calls = (l', Allowed)
        ∧ ∀ q c, (q, c) ∈ RATE_LIMITS → recorded l' alice q = [90000000].
Proof.
  apply (lapsed_identity_admitted alice 90000000 ledger_ten_calls).
  - apply reachable_plainly_run_checks; [reflexivity | apply plainly_empty].
  - reflexivity.
  - apply (bool_decide_unpack _). vm_compute. reflexivity.
Defined.

(** ** Identities do not interfere *)

Lemma checkRateLimit_with_bucket limits ip now l :
  checkRateLimit_with limits ip now l
  = (<[ip := (check_bucket limits now (default ∅ (l !! ip))).1]> l,
     (check_bucket limits now (default ∅ (l !! ip))).2).
Proof.
  unfold checkRateLimit_with, check_bucket.
  destruct (check_periods now limits (default ∅ (l !! ip))) as [b' r].
  by destruct r.
Qed.

(** X2. In a ledger built by the requests of identities that name no
    property of [Object.prototype], calls for two different such
    identities commute: either order leaves the same ledger, and each
    call gets the decision it would get without the other. *)
Theorem identities_commute ip1 ip2 now1 now2 l :
  reachable_plainly l →
  plain ip1 = true → plain ip2 = true →
  ip1 ≠ ip2 →
  (checkRateLimit ip2 now2 (checkRateLimit ip1 now1 l).1).1
  = (checkRateLimit ip1 now1 (checkRateLimit ip2 now2 l).1).1
  ∧ (checkRateLimit ip2 now2 (checkRateLimit ip1 now1 l).1).2
    = (checkRateLimit ip2 now2 l).2
  ∧ (checkRateLimit ip1 now1 (checkRateLimit ip2 now2 l).1).2
    = (checkRateLimit ip1 now1 l).2.
Proof.
  intros _ _ _ Hne. unfold checkRateLimit.
  rewrite !(checkRateLimit_with_bucket RATE_LIMITS). cbn [fst snd].
  rewrite !lookup_insert_ne by done.
  split; [by apply insert_insert_ne | done].
Qed.

Lemma identities_commute_witness :
  (checkRateLimit "5.6.7.8" 7 (checkRateLimit alice 0 ledger_ten_calls).1).1
  = (checkRateLimit alice 0 (checkRateLimit "5.6.7.8" 7 ledger_ten_calls).1).1
  ∧ (checkRateLimit "5.6.7.8" 7 (checkRateLimit alice 0 ledger_ten_calls).1).2
    = (checkRateLimit "5.6.7.8" 7 ledger_ten_calls).2
  ∧ (checkRateLimit alice 0 (checkRateLimit "5.6.7.8" 7 ledger_ten_calls).1).2
    = (checkRateLimit alice 0 ledger_ten_calls).2.
Proof.
  apply (identities_commute alice "5.6.7.8" 0 7 ledger_ten_calls).
  - apply reachable_plainly_run_checks; [reflexivity | apply plainly_empty].
  - reflexivity.
  - reflexivity.
  - discriminate.
Defined.

(** ** The sweep *)

Lemma sweep_filter_later now now' mw arr :
  now ≤ now' →
  sweep_filter now' mw (sweep_filter now mw arr) = sweep_filter now' mw arr.
Proof.
  intros Hnow. destruct mw as [w|]; [|done]. cbn.
  by apply prune_prune_later.
Qed.

Lemma sweep_bucket_later now now' mw b :
  now ≤ now' →
  sweep_bucket now mw b ≫= sweep_bucket now' mw = sweep_bucket now' mw b.
Proof.
  intros Hnow.
  assert (sweep_filter now' mw <$> (sweep_filter now mw <$> b)
          = sweep_filter now' mw <$> b) as Hcomp.
  { rewrite <- map_fmap_compose. apply map_fmap_ext. intros q arr _. cbn.
    by apply sweep_filter_later. }
  unfold sweep_bucket. cbv zeta.
  destruct (decide (map_Forall (λ _ arr, length arr = 0%nat)
                      (sweep_filter now mw <$> b))) as [Hempty|Hempty]; cbn.
  - assert (map_Forall (λ _ arr, length arr = 0%nat)
              (sweep_filter now' mw <$> b)) as Hempty'.
    { rewrite <- Hcomp. intros q arr. rewrite lookup_fmap.
      destruct ((sweep_filter now mw <$> b) !! q) as [arr0|] eqn:Hq; [|done].
      cbn. intros [= <-]. apply Hempty in Hq. apply nil_length_inv in Hq.
      rewrite Hq. by rewrite sweep_filter_nil. }
    rewrite (decide_True _ _ Hempty'). reflexivity.
  - by rewrite Hcomp.
Qed.

(** X3. A sweep makes an earlier sweep redundant: sweeping at a time and
    again at the same or a later time leaves the ledger that the later
    sweep alone leaves. In particular a sweep repeated at the same time
    changes nothing more. *)
Theorem later_sweep_subsumes now now' l :
  now ≤ now' →
  cleanupOldEntries now' (cleanupOldEntries now l) = cleanupOldEntries now' l.
Proof.
  intros Hnow. unfold cleanupOldEntries. apply map_eq. intros ip.
  rewrite !lookup_omap. destruct (l !! ip) as [b|]; cbn; [|done].
  by apply sweep_bucket_later.
Qed.

Lemma later_sweep_subsumes_witness :
  cleanupOldEntries 86400000 (cleanupOldEntries 120000 ledger_ten_calls)
  = cleanupOldEntries 86400000 ledger_ten_calls.
Proof. apply (later_sweep_subsumes 120000 86400000 ledger_ten_calls). lia. Defined.

(** X4. In a ledger built by the requests of identities that name no
    property of [Object.prototype], the sweep keeps exactly the
    identities that still have a timestamp younger than the longest
    window (a day); every other identity leaves the ledger. *)
Theorem sweep_keeps_active now l ip :
  reachable_plainly l →
  plain ip = true →
  is_Some (cleanupOldEntries now l !! ip)
  ↔ ∃ q t, t ∈ recorded l ip q ∧ now - t < 24 * 60 * 60 * 1000.
Proof.
  intros _ _. unfold cleanupOldEntries, recorded. rewrite maxWindow_RATE_LIMITS, lookup_omap.
  destruct (l !! ip) as [b|]; cbn.
  2:{ split; [by intros [? ?]|]. intros (q & t & Ht & _).
      unfold timestamps in Ht. rewrite lookup_empty in Ht. by apply elem_of_nil in Ht. }
  unfold sweep_bucket. case_decide as Hempty.
  - split; [by intros [? ?]|]. intros (q & t & Ht & Hyoung). exfalso.
    unfold timestamps in Ht. destruct (b !! q) as [arr|] eqn:Hq; cbn in Ht;
      [|by apply elem_of_nil in Ht].
    specialize (Hempty q (prune now (24 * 60 * 60 * 1000) arr)).
    rewrite lookup_fmap, Hq in Hempty. specialize (Hempty eq_refl).
    apply nil_length_inv in Hempty.
    assert (t ∈ prune now (24 * 60 * 60 * 1000) arr) as Hin
      by (apply elem_of_prune; split; [lia | done]).
    rewrite Hempty in Hin. by apply elem_of_nil in Hin.
  - split; [|by eauto]. intros _.
    apply map_not_Forall in Hempty as (q & arr' & Hq & Hne); [|apply _].
    rewrite lookup_fmap in Hq. destruct (b !! q) as [arr|] eqn:Hbq; [|done].
    cbn in Hq. injection Hq as <-.
    destruct (prune now (24 * 60 * 60 * 1000) arr) as [|t rest] eqn:Hp; [done|].
    assert (t ∈ prune now (24 * 60 * 60 * 1000) arr) as Hin by (rewrite Hp; left).
    apply elem_of_prune in Hin as [Hyoung Hin].
    exists q, t. unfold timestamps. rewrite Hbq. split; [done | lia].
Qed.

Lemma sweep_keeps_active_witness :
  is_Some (cleanupOldEntries 120000 ledger_ten_calls !! alice)
  ↔ ∃ q t, t ∈ recorded ledger_ten_calls alice q ∧ 120000 - t < 24 * 60 * 60 * 1000.
Proof.
  apply (sweep_keeps_active 120000 ledger_ten_calls alice).
  - apply reachable_plainly_run_checks; [reflexivity | apply plainly_empty].
  - reflexivity.
Defined.

(** ** The sweep and the admission *)

Lemma check_periods_decision now limits : ∀ b1 b2,
  NoDup limits.*1 →
  (∀ p c, (p, c) ∈ limits →
     prune now (window c) (timestamps b1 p) = prune now (window c) (timestamps b2 p)) →
  (check_periods now limits b1).2 = (check_periods now limits b2).2.
Proof.
  induction limits as [|[p c] rest IH]; intros b1 b2 Hnd Hsame; [done|].
  cbn in Hnd. apply NoDup_cons in Hnd as [Hfresh Hnd]. cbn.
  rewrite (Hsame p c) by left.
  case_decide; [done|]. apply IH; [done|]. intros q cq Hq.
  assert (p ≠ q) as Hpq.
  { intros ->. apply Hfresh, list_elem_of_fmap. by exists (q, cq). }
  rewrite !timestamps_insert, !decide_False by done. apply Hsame. by right.
Qed.

Lemma RATE_LIMITS_window_le_day p c :
  (p, c) ∈ RATE_LIMITS → window c ≤ 24 * 60 * 60 * 1000.
Proof.
  intros Hin.
  assert (Forall (λ pc, window pc.2 ≤ 24 * 60 * 60 * 1000) RATE_LIMITS) as Hall
    by (by apply (bool_decide_unpack _)).
  rewrite Forall_forall in Hall. exact (Hall _ Hin).
Qed.

Lemma checkRateLimit_decision ip now l :
  (checkRateLimit ip now l).2
  = (check_periods now RATE_LIMITS (default ∅ (l !! ip))).2.
Proof.
  unfold checkRateLimit, checkRateLimit_with.
  destruct (check_periods now RATE_LIMITS (default ∅ (l !! ip))) as [b' r].
  by destruct r.
Qed.

(** X5. A sweep made no later than the next call changes neither that
    call's decision nor, when the call is allowed, the arrays it leaves
    for the identity: what the sweep removes the call would prune. *)
Theorem sweep_transparent ip now now' l :
  now' ≤ now →
  (checkRateLimit ip now (cleanupOldEntries now' l)).2 = (checkRateLimit ip now l).2
  ∧ ((checkRateLimit ip now l).2 = Allowed →
     ∀ q c, (q, c) ∈ RATE_LIMITS →
       recorded (checkRateLimit ip now (cleanupOldEntries now' l)).1 ip q
       = recorded (checkRateLimit ip now l).1 ip q).
Proof.
  intros Hnow.
  assert (∀ q c, (q, c) ∈ RATE_LIMITS →
            prune now (window c) (recorded (cleanupOldEntries now' l) ip q)
            = prune now (window c) (recorded l ip q)) as Hsame.
  { intros q c Hq. rewrite recorded_cleanupOldEntries, maxWindow_RATE_LIMITS. cbn.
    apply prune_prune_later; [done|]. by apply (RATE_LIMITS_window_le_day q). }
  assert ((checkRateLimit ip now (cleanupOldEntries now' l)).2
          = (checkRateLimit ip now l).2) as Hdec.
  { rewrite !checkRateLimit_decision.
    apply check_periods_decision; [apply RATE_LIMITS_NoDup | apply Hsame]. }
  split; [done|]. intros Hallowed q c Hq.
  destruct (checkRateLimit ip now l) as [l1 r1] eqn:H1.
  destruct (checkRateLimit ip now (cleanupOldEntries now' l)) as [l2 r2] eqn:H2.
  cbn in *. subst r1 r2.
  destruct (checkRateLimit_allowed _ _ _ _ H1 q c Hq) as [-> _].
  destruct (checkRateLimit_allowed _ _ _ _ H2 q c Hq) as [-> _].
  by rewrite Hsame.
Qed.

Lemma sweep_transparent_witness :
  (checkRateLimit alice 90000000 (cleanupOldEntries 86400000 ledger_ten_calls)).2
  = (checkRateLimit alice 90000000 ledger_ten_calls).2
  ∧ ((checkRateLimit alice 90000000 ledger_ten_calls).2 = Allowed →
     ∀ q c, (q, c) ∈ RATE_LIMITS →
       recorded (checkRateLimit alice 90000000
                   (cleanupOldEntries 86400000 ledger_ten_calls)).1 alice q
       = recorded (checkRateLimit alice 90000000 ledger_ten_calls).1 alice q).
Proof.
  apply (sweep_transparent alice 90000000 86400000 ledger_ten_calls). lia.
Defined.

(** ** After a denial *)

(** X6. The retry delay is honoured by the tier that denied: when no
    timestamp of that tier was later than the denied call, a call made
    at least the tier's window later is not denied by that tier. *)
Theorem denying_tier_reopens ip now now' l l' p lim c :
  checkRateLimit ip now l = (l', Denied p lim) →
  (p, c) ∈ RATE_LIMITS →
  Forall (λ t, t ≤ now) (recorded l ip p) →
  now + window c ≤ now' →
  ¬ denied_by p (checkRateLimit ip now' l').2.
Proof.
  intros Hrun Hin Hpast Hlater Hagain.
  destruct (checkRateLimit_denied _ _ _ _ _ _ Hrun) as (c0 & Hin0 & _ & E & _).
  destruct (checkRateLimit ip now' l') as [l'' [|q lim']] eqn:Hrun'; [done|].
  cbn in Hagain. subst q.
  destruct (checkRateLimit_denied _ _ _ _ _ _ Hrun')
    as (c1 & Hin1 & _ & E' & Hge & _).
  rewrite (tier_config_unique _ _ _ _ RATE_LIMITS_NoDup Hin0 Hin) in E.
  rewrite (tier_config_unique _ _ _ _ RATE_LIMITS_NoDup Hin1 Hin) in E', Hge.
  pose proof (RATE_LIMITS_max_pos p c Hin) as Hpos.
  rewrite E', prune_nil_old in Hge; [cbn in Hge; lia|].
  rewrite E. apply Forall_forall. intros t [_ Ht]%elem_of_prune.
  rewrite Forall_forall in Hpast. specialize (Hpast t Ht). lia.
Qed.

Lemma denying_tier_reopens_witness :
  ¬ denied_by "minute"
      (checkRateLimit alice 60000 (checkRateLimit alice 0 ledger_ten_calls).1).2.
Proof.
  apply (denying_tier_reopens alice 0 60000 ledger_ten_calls
           (checkRateLimit alice 0 ledger_ten_calls).1 "minute" 10
           {| max := 10; window := 60 * 1000 |}).
  - vm_compute. reflexivity.
  - left.
  - apply (bool_decide_unpack _). vm_compute. reflexivity.
  - vm_compute. discriminate.
Defined.

(** ** The tiers are nested *)

Lemma tiers_before_trans (limits : list (string * RateLimit)) p c q r :
  (p, c) ∈ tiers_before limits q →
  q ∈ (tiers_before limits r).*1 →
  (p, c) ∈ tiers_before limits r.
Proof.
  induction limits as [|[r0 c0] rest IH]; cbn; [by intros ?%elem_of_nil|].
  destruct (decide (r0 = q)) as [->|Hq]; [by intros ?%elem_of_nil|].
  destruct (decide (r0 = r)) as [->|Hr]; cbn; [by intros _ ?%elem_of_nil|].
  intros Hp [->|Hqr]%elem_of_cons; [done|].
  apply elem_of_cons in Hp as [->|Hp]; [left | right; auto].
Qed.

Lemma RATE_LIMITS_before_window p c q cq :
  (p, c) ∈ tiers_before RATE_LIMITS q → (q, cq) ∈ RATE_LIMITS →
  window c ≤ window cq.
Proof.
  intros Hp Hq.
  assert (Forall (λ qc, Forall (λ pc, window pc.2 ≤ window qc.2)
                          (tiers_before RATE_LIMITS qc.1)) RATE_LIMITS) as Hall
    by (by apply (bool_decide_unpack _)).
  rewrite Forall_forall in Hall. specialize (Hall _ Hq). cbn in Hall.
  rewrite Forall_forall in Hall. exact (Hall _ Hp).
Qed.

Lemma checkRateLimit_denied_sublist ip now l l' p lim q :
  checkRateLimit ip now l = (l', Denied p lim) →
  recorded l' ip q `sublist_of` recorded l ip q.
Proof.
  intros Hrun.
  destruct (checkRateLimit_denied _ _ _ _ _ _ Hrun)
    as (c & Hin & _ & E & _ & Hpre & Hrest).
  destruct (decide (q = p)) as [->|Hqp]; [rewrite E; apply prune_sublist|].
  destruct (decide (q ∈ (tiers_before RATE_LIMITS p).*1)) as [Hb|Hb].
  - apply list_elem_of_fmap in Hb as ([q' cq] & Hq' & Hb). cbn in Hq'. subst q'.
    destruct (Hpre q cq Hb) as [-> _]. apply prune_sublist.
  - by rewrite Hrest.
Qed.

Lemma reachable_nested l : reachable l → nested l.
Proof.
  induction 1 as [|ip0 now l _ IH|now l _ IH]; intros ip p c q cq Hp Hq.
  - unfold recorded, timestamps. rewrite lookup_empty. cbn. by rewrite lookup_empty.
  - destruct (decide (ip0 = ip)) as [->|Hne].
    2:{ unfold recorded. rewrite checkRateLimit_other_ip by done. by eapply IH. }
    pose proof (tiers_before_subset _ _ _ Hp) as Hp'.
    pose proof (RATE_LIMITS_before_window p c q cq Hp Hq) as Hw.
    pose proof (IH ip p c q cq Hp Hq) as Hsub.
    destruct (checkRateLimit ip now l) as [l' [|pd lim]] eqn:Hrun; cbn.
    + destruct (checkRateLimit_allowed _ _ _ _ Hrun p c Hp') as [-> _].
      destruct (checkRateLimit_allowed _ _ _ _ Hrun q cq Hq) as [-> _].
      apply sublist_app; [by apply prune_sublist_windows | done].
    + destruct (checkRateLimit_denied _ _ _ _ _ _ Hrun)
        as (cd & Hind & _ & E & _ & Hpre & Hrest).
      assert (∀ x cx, (x, cx) ∈ RATE_LIMITS →
                x = pd ∨ x ∈ (tiers_before RATE_LIMITS pd).*1 →
                recorded l' ip x = prune now (window cx) (recorded l ip x))
        as Hpruned.
      { intros x cx Hx [->|Hb].
        - by rewrite (tier_config_unique _ _ _ _ RATE_LIMITS_NoDup Hx Hind).
        - apply (tiers_before_elem _ _ _ cx RATE_LIMITS_NoDup Hx) in Hb.
          by destruct (Hpre x cx Hb). }
      destruct (decide (q = pd ∨ q ∈ (tiers_before RATE_LIMITS pd).*1))
        as [Hqp|Hqp].
      * rewrite (Hpruned q cq Hq Hqp), (Hpruned p c Hp').
        { by apply prune_sublist_windows. }
        right. destruct Hqp as [->|Hqb].
        -- apply list_elem_of_fmap. by exists (p, c).
        -- apply list_elem_of_fmap. exists (p, c). split; [done|].
           by eapply tiers_before_trans.
      * rewrite (Hrest q) by tauto.
        etrans; [by eapply checkRateLimit_denied_sublist | done].
  - rewrite !recorded_cleanupOldEntries. destruct (maxWindow RATE_LIMITS); cbn.
    + apply prune_sublist_mono. by eapply IH.
    + done.
Qed.

(** X7. In every ledger the two operations can reach by the requests
    of identities that name no property of [Object.prototype], the
    minute array of an identity is a subsequence of its hour array, and
    the hour array of its day array: a request counted against a shorter
    tier is counted against every longer one. *)
Theorem tiers_nested l ip :
  reachable_plainly l →
  recorded l ip "minute" `sublist_of` recorded l ip "hour"
  ∧ recorded l ip "hour" `sublist_of` recorded l ip "day"
  ∧ (length (recorded l ip "minute") ≤ length (recorded l ip "hour")
     ≤ length (recorded l ip "day"))%nat.
Proof.
  intros Hl%reachable_plainly_reachable.
  pose proof (reachable_nested l Hl ip) as Hn.
  assert (recorded l ip "minute" `sublist_of` recorded l ip "hour") as H1.
  { apply (Hn _ {| max := 10; window := 60 * 1000 |}
              _ {| max := 50; window := 60 * 60 * 1000 |}); [left | right; left]. }
  assert (recorded l ip "hour" `sublist_of` recorded l ip "day") as H2.
  { apply (Hn _ {| max := 50; window := 60 * 60 * 1000 |}
              _ {| max := 200; window := 24 * 60 * 60 * 1000 |});
      [right; left | right; right; left]. }
  split_and!; [done | done | by apply sublist_length | by apply sublist_length].
Qed.

Lemma tiers_nested_witness :
  recorded (checkRateLimit alice 3600500 ledger_ten_calls).1 alice "minute"
    `sublist_of` recorded (checkRateLimit alice 3600500 ledger_ten_calls).1 alice "hour"
  ∧ recorded (checkRateLimit alice 3600500 ledger_ten_calls).1 alice "hour"
    `sublist_of` recorded (checkRateLimit alice 3600500 ledger_ten_calls).1 alice "day"
  ∧ (length (recorded (checkRateLimit alice 3600500 ledger_ten_calls).1 alice "minute")
     ≤ length (recorded (checkRateLimit alice 3600500 ledger_ten_calls).1 alice "hour")
     ≤ length (recorded (checkRateLimit alice 3600500 ledger_ten_calls).1 alice "day"))%nat.
Proof.
  apply (tiers_nested (checkRateLimit alice 3600500 ledger_ten_calls).1 alice).
  apply plainly_check; [reflexivity|].
  apply reachable_plainly_run_checks; [reflexivity | apply plainly_empty].
Defined.

(** ** Histories under a clock that never runs backwards *)

Lemma prune_agree_later T T' w a b :
  T ≤ T' → prune T w a = prune T w b → prune T' w a = prune T' w b.
Proof.
  intros HT Hab.
  rewrite <- (prune_prune_later T' T w w a), <- (prune_prune_later T' T w w b) by lia.
  by rewrite Hab.
Qed.

Lemma prune_app now w a b : prune now w (a ++ b) = prune now w a ++ prune now w b.
Proof. apply filter_app. Qed.

Lemma sublist_Forall_le (T : Z) (a b : list Z) :
  a `sublist_of` b → Forall (λ t, t ≤ T) b → Forall (λ t, t ≤ T) a.
Proof.
  induction 1 as [|x a b _ IH|x a b _ IH]; [done | |];
    intros [? ?]%Forall_cons; [constructor|]; auto.
Qed.

Lemma sublist_StronglySorted (a b : list Z) :
  a `sublist_of` b → StronglySorted Z.le b → StronglySorted Z.le a.
Proof.
  induction 1 as [|x a b Hab IH|x a b _ IH]; [done | |];
    intros [Hb Hx]%StronglySorted_inv; [|auto].
  constructor; [auto|]. rewrite Forall_forall in Hx |- *.
  intros y Hy. apply Hx. revert Hy. clear -Hab.
  induction Hab as [|z a b _ IH|z a b _ IH]; [done | |].
  - intros [->|?]%elem_of_cons; [left | right; auto].
  - right; auto.
Qed.

Lemma chronological_later T T' l : T ≤ T' → chronological T l → chronological T' l.
Proof.
  intros HT Hl ip q c Hq. destruct (Hl ip q c Hq) as [Hs Hle]. split; [done|].
  eapply Forall_impl; [done|]. cbn. intros t Ht. lia.
Qed.

Lemma checkRateLimit_chronological T ip now l :
  T ≤ now → chronological T l → chronological now (checkRateLimit ip now l).1.
Proof.
  intros HT Hl ip' q c Hq.
  destruct (chronological_later T now l HT Hl ip' q c Hq) as [Hs Hle].
  destruct (decide (ip = ip')) as [<-|Hne].
  2:{ unfold recorded. by rewrite checkRateLimit_other_ip. }
  destruct (checkRateLimit ip now l) as [l' [|pd lim]] eqn:Hrun; cbn.
  - destruct (checkRateLimit_allowed _ _ _ _ Hrun q c Hq) as [-> _].
    pose proof (prune_sublist now (window c) (recorded l ip q)) as Hsub.
    pose proof (sublist_Forall_le _ _ _ Hsub Hle) as Hle'.
    split.
    + apply StronglySorted_app_2.
      * intros x1 x2 Hx1 ->%list_elem_of_singleton.
        rewrite Forall_forall in Hle'. by apply Hle'.
      * by eapply sublist_StronglySorted.
      * repeat constructor.
    + apply Forall_app. split; [done|]. repeat constructor. lia.
  - pose proof (checkRateLimit_denied_sublist _ _ _ _ _ _ q Hrun) as Hsub.
    split; [by eapply sublist_StronglySorted | by eapply sublist_Forall_le].
Qed.

Lemma cleanupOldEntries_chronological T now l :
  T ≤ now → chronological T l → chronological now (cleanupOldEntries now l).
Proof.
  intros HT Hl ip q c Hq.
  destruct (chronological_later T now l HT Hl ip q c Hq) as [Hs Hle].
  rewrite recorded_cleanupOldEntries, maxWindow_RATE_LIMITS. cbn.
  pose proof (prune_sublist now (24 * 60 * 60 * 1000) (recorded l ip q)) as Hsub.
  split; [by eapply sublist_StronglySorted | by eapply sublist_Forall_le].
Qed.

Lemma checkRateLimit_denied_prune_same ip now l l' p lim q c :
  checkRateLimit ip now l = (l', Denied p lim) → (q, c) ∈ RATE_LIMITS →
  prune now (window c) (recorded l' ip q) = prune now (window c) (recorded l ip q).
Proof.
  intros Hrun Hq.
  destruct (checkRateLimit_denied _ _ _ _ _ _ Hrun)
    as (cd & Hind & _ & E & _ & Hpre & Hrest).
  destruct (decide (q = p)) as [->|Hqp].
  { rewrite E, (tier_config_unique _ _ _ _ RATE_LIMITS_NoDup Hq Hind).
    apply prune_prune. }
  destruct (decide (q ∈ (tiers_before RATE_LIMITS p).*1)) as [Hb|Hb].
  - apply (tiers_before_elem _ _ _ c RATE_LIMITS_NoDup Hq) in Hb.
    destruct (Hpre q c Hb) as [-> _]. apply prune_prune.
  - by rewrite Hrest.
Qed.

Lemma window_count_le_prune now w s adm :
  now ≤ s →
  (length (filter (λ t, (s - w < t ≤ s)%Z) adm) ≤ length (prune now w adm))%nat.
Proof.
  intros Hs. apply sublist_length. unfold prune.
  induction adm as [|t adm IH]; [done|].
  rewrite !filter_cons. repeat case_decide; try lia;
    [by constructor | by constructor | done].
Qed.

Lemma window_count_snoc_before now w s adm :
  s < now →
  filter (λ t, s - w < t ≤ s) (adm ++ [now]) = filter (λ t, s - w < t ≤ s) adm.
Proof.
  intros Hs. rewrite filter_app, filter_cons_False by lia.
  by rewrite filter_nil, app_nil_r.
Qed.

Lemma accounted_later ip T T' l adm :
  T ≤ T' → accounted ip T l adm → accounted ip T' l adm.
Proof.
  intros HT Hacc q c Hq. destruct (Hacc q c Hq) as [Hsame Hcount].
  split; [by eapply prune_agree_later | done].
Qed.

Lemma checkRateLimit_accounted ip T ip' now l adm :
  T ≤ now → accounted ip T l adm →
  accounted ip now (checkRateLimit ip' now l).1
    (match (checkRateLimit ip' now l).2 with
     | Allowed => if decide (ip' = ip) then adm ++ [now] else adm
     | Denied _ _ => adm
     end).
Proof.
  intros HT Hacc. apply (accounted_later _ _ now) in Hacc; [|done].
  destruct (decide (ip' = ip)) as [->|Hne].
  2:{ assert (accounted ip now (checkRateLimit ip' now l).1 adm) as Hsame.
      { intros q c Hq. unfold recorded. rewrite checkRateLimit_other_ip by done.
        by apply Hacc. }
      by destruct (checkRateLimit ip' now l).2. }
  destruct (checkRateLimit ip now l) as [l' [|pd lim]] eqn:Hrun; cbn;
    intros q c Hq; destruct (Hacc q c Hq) as [Hsame Hcount].
  - destruct (checkRateLimit_allowed _ _ _ _ Hrun q c Hq) as [-> Hroom].
    split.
    + by rewrite !prune_app, prune_prune, Hsame.
    + intros s. destruct (decide (s < now)) as [Hs|Hs].
      * by rewrite window_count_snoc_before.
      * assert (now ≤ s) as Hs' by lia.
        pose proof (window_count_le_prune now (window c) s (adm ++ [now]) Hs')
          as Hle.
        rewrite prune_app, length_app, Hsame in Hle.
        pose proof (length_prune now (window c) [now]) as H1.
        change (length [now]) with 1%nat in H1. lia.
  - split; [|done]. rewrite Hsame. symmetry.
    by eapply checkRateLimit_denied_prune_same.
Qed.

Lemma cleanupOldEntries_accounted ip T now l adm :
  T ≤ now → accounted ip T l adm → accounted ip now (cleanupOldEntries now l) adm.
Proof.
  intros HT Hacc. apply (accounted_later _ _ now) in Hacc; [|done].
  intros q c Hq. destruct (Hacc q c Hq) as [Hsame Hcount]. split; [|done].
  rewrite recorded_cleanupOldEntries, maxWindow_RATE_LIMITS. cbn [sweep_filter].
  rewrite prune_prune_later; [done | done |]. by apply (RATE_LIMITS_window_le_day q).
Qed.

Lemma replay_invariants ip calls : ∀ T l adm,
  nondecreasing T (call_time <$> calls) = true →
  chronological T l → accounted ip T l adm →
  chronological (last_reading T (call_time <$> calls)) (replay ip calls l adm).1
  ∧ accounted ip (last_reading T (call_time <$> calls))
      (replay ip calls l adm).1 (replay ip calls l adm).2.
Proof.
  induction calls as [|[ip' now|now] rest IH]; intros T l adm Hclock Hchr Hacc;
    [done | |]; cbn in Hclock; apply andb_true_iff in Hclock as [HT Hclock];
    apply bool_decide_eq_true in HT; cbn.
  - pose proof (checkRateLimit_chronological T ip' now l HT Hchr) as Hchr'.
    pose proof (checkRateLimit_accounted ip T ip' now l adm HT Hacc) as Hacc'.
    destruct (checkRateLimit ip' now l) as [l' r]. by apply IH.
  - apply IH; [done | by eapply cleanupOldEntries_chronological
                    | by eapply cleanupOldEntries_accounted].
Qed.

Lemma accounted_empty ip T : accounted ip T ∅ [].
Proof.
  intros q c Hq. split.
  - unfold recorded, timestamps. rewrite lookup_empty. cbn. by rewrite lookup_empty.
  - intros s. cbn. pose proof (RATE_LIMITS_max_pos q c Hq). lia.
Qed.

Lemma chronological_empty T : chronological T ∅.
Proof.
  intros ip q c _. unfold recorded, timestamps. rewrite lookup_empty. cbn.
  rewrite lookup_empty. cbn. split; constructor.
Qed.



(** X9. Under a clock that never runs backwards every array of every
    identity stays in chronological order and never holds a timestamp
    later than the last clock reading. *)
Theorem arrays_chronological ip0 calls T ip q c :
  nondecreasing T (call_time <$> calls) = true →
  (q, c) ∈ RATE_LIMITS →
  StronglySorted Z.le (recorded (replay ip0 calls ∅ []).1 ip q)
  ∧ Forall (λ t, t ≤ last_reading T (call_time <$> calls))
      (recorded (replay ip0 calls ∅ []).1 ip q).
Proof.
  intros Hclock Hq.
  destruct (replay_invariants ip0 calls T ∅ [] Hclock
              (chronological_empty T) (accounted_empty ip0 T)) as [Hchr _].
  by apply (Hchr ip q c).
Qed.

Lemma arrays_chronological_witness :
  StronglySorted Z.le
    (recorded (replay alice [Check alice 1500; Sweep 2000; Check alice 61000] ∅ []).1
       alice "hour")
  ∧ Forall (λ t, t ≤ last_reading 0
                   (call_time <$> [Check alice 1500; Sweep 2000; Check alice 61000]))
      (recorded (replay alice [Check alice 1500; Sweep 2000; Check alice 61000] ∅ []).1
         alice "hour").
Proof.
  apply (arrays_chronological alice [Check alice 1500; Sweep 2000; Check alice 61000]
           0 alice "hour" {| max := 50; window := 60 * 60 * 1000 |}).
  - vm_compute. reflexivity.
  - right. left.
Defined.

(** * Further properties of the handler *)

(** ** Requests that are not POSTs *)

(** X10. Only a POST changes the state: any other request leaves the
    ledger and the counters as they were; it is answered 200 when it is
    OPTIONS or a GET of a path containing /stats, and 405 otherwise. *)
Theorem only_post_writes event env st :
  httpMethod event ≠ "POST"%string →
  (handler event env st).1 = st
  ∧ (statusCode (handler event env st).2 = 200
     ∨ statusCode (handler event env st).2 = 405)
  ∧ (statusCode (handler event env st).2 = 200
     ↔ httpMethod event = "OPTIONS"%string
       ∨ (httpMethod event = "GET"%string ∧ includes (path event) "/stats" = true)).
Proof.
  intros Hmethod. unfold handler.
  destruct (decide (httpMethod event = "OPTIONS"%string)) as [Ho|Ho]; cbn.
  { split_and!; [done | by left | by split; [left|]]. }
  destruct (bool_decide (httpMethod event = "GET"%string)) eqn:Hg; cbn.
  - apply bool_decide_eq_true in Hg.
    destruct (includes (path event) "/stats") eqn:Hp; cbn.
    + split_and!; [done | by left | by split; [right|]].
    + rewrite decide_True by done. cbn.
      split_and!; [done | by right | split; [done|]].
      intros [?|[_ ?]]; done.
  - apply bool_decide_eq_false in Hg. rewrite decide_True by done. cbn.
    split_and!; [done | by right | split; [done|]].
    intros [?|[? _]]; done.
Qed.

Lemma only_post_writes_state event env st :
  httpMethod event ≠ "POST"%string → (handler event env st).1 = st.
Proof.
  intros Hmethod. unfold handler.
  repeat case_match; done.
Qed.

Lemma only_post_writes_witness :
  (handler get_stats (env_at 5) state_after_ten_posts).1 = state_after_ten_posts
  ∧ (statusCode (handler get_stats (env_at 5) state_after_ten_posts).2 = 200
     ∨ statusCode (handler get_stats (env_at 5) state_after_ten_posts).2 = 405)
  ∧ (statusCode (handler get_stats (env_at 5) state_after_ten_posts).2 = 200
     ↔ httpMethod get_stats = "OPTIONS"%string
       ∨ (httpMethod get_stats = "GET"%string
          ∧ includes (path get_stats) "/stats" = true)).
Proof.
  apply (only_post_writes get_stats (env_at 5) state_after_ten_posts). discriminate.
Defined.

(** ** The identity of the client *)

Lemma first_header_cases h keys fallback :
  first_header h keys fallback = fallback
  ∨ (first_header h keys fallback ≠ ""%string
     ∧ ∃ k, k ∈ keys ∧ h !! k = Some (first_header h keys fallback)).
Proof.
  induction keys as [|k rest IH]; cbn; [by left|].
  destruct (h !! k) as [v|] eqn:Hk.
  - case_decide as Hv.
    + destruct IH as [?|(? & k' & ? & ?)]; [by left|].
      right. split; [done|]. exists k'. split; [by right | done].
    + right. split; [done|]. exists k. split; [left | done].
  - destruct IH as [?|(? & k' & ? & ?)]; [by left|].
    right. split; [done|]. exists k'. split; [by right | done].
Qed.

Lemma first_header_skip h k rest fallback :
  h !! k = None ∨ h !! k = Some ""%string →
  first_header h (k :: rest) fallback = first_header h rest fallback.
Proof. intros [Hk|Hk]; cbn; rewrite Hk; [done | by rewrite decide_True]. Qed.

Lemma first_header_take h k rest fallback v :
  h !! k = Some v → v ≠ ""%string → first_header h (k :: rest) fallback = v.
Proof. intros Hk Hv. cbn. rewrite Hk. by rewrite decide_False. Qed.

(** X11. The client identity is the first of the headers
    x-forwarded-for, client-ip and x-real-ip, in this order, that is
    present and not empty: a header that is missing or empty is skipped
    and the next one is read. With none of the three it is "unknown".
    It is never the empty string. *)
Theorem client_ip_first_header event :
  client_ip event ≠ ""%string
  ∧ (client_ip event = "unknown"%string
     ∨ ∃ k, k ∈ ["x-forwarded-for"; "client-ip"; "x-real-ip"]%string
            ∧ headers event !! k = Some (client_ip event))
  ∧ (∀ v, headers event !! "x-forwarded-for"%string = Some v → v ≠ ""%string →
          client_ip event = v)
  ∧ (∀ v, no_header event "x-forwarded-for" →
          headers event !! "client-ip"%string = Some v → v ≠ ""%string →
          client_ip event = v)
  ∧ (∀ v, no_header event "x-forwarded-for" → no_header event "client-ip" →
          headers event !! "x-real-ip"%string = Some v → v ≠ ""%string →
          client_ip event = v)
  ∧ (no_header event "x-forwarded-for" → no_header event "client-ip" →
     no_header event "x-real-ip" →
     client_ip event = "unknown"%string).
Proof.
  unfold client_ip, no_header. split_and!.
  - destruct (first_header_cases (headers event)
                ["x-forwarded-for"; "client-ip"; "x-real-ip"]%string "unknown")
      as [->|[? _]]; done.
  - destruct (first_header_cases (headers event)
                ["x-forwarded-for"; "client-ip"; "x-real-ip"]%string "unknown")
      as [?|[_ ?]]; [by left | by right].
  - intros v Hv Hne. by apply first_header_take.
  - intros v H1 Hv Hne. rewrite first_header_skip by done.
    by apply first_header_take.
  - intros v H1 H2 Hv Hne. rewrite !first_header_skip by done.
    by apply first_header_take.
  - intros H1 H2 H3. by rewrite !first_header_skip.
Qed.

(** An empty x-forwarded-for and no client-ip: x-real-ip is read. *)
Example client_ip_falls_through :
  client_ip {| httpMethod := "POST"; path := "/";
               headers := {[ "x-forwarded-for"%string := ""%string;
                             "x-real-ip"%string := "10.0.0.7"%string ]};
               body := NoBody |}
  = "10.0.0.7"%string.
Proof. by vm_compute. Qed.

(** ** The upstream service *)

(** X12. A request that the rate limiter denies, or that is answered
    before the fetch (unparsable or null body, invalid prompt or
    conversation, no API key), gets the same response and leaves the
    same state whatever the upstream service would have answered. *)
Theorem upstream_not_consulted event env st f :
  httpMethod event = "POST"%string →
  (checkRateLimit (client_ip event) (now_check env) (swept env st)).2 ≠ Allowed
  ∨ forwards event env = None →
  handler event (with_fetch f env) st = handler event env st.
Proof.
  intros Hpost Hearly. rewrite !handler_post by done.
  change (swept (with_fetch f env) st) with (swept env st).
  change (now_check (with_fetch f env)) with (now_check env).
  destruct (checkRateLimit _ _ _) as [l' [|p lim]]; [|done].
  destruct Hearly as [?|Hnone]; [done|].
  assert (try_catch event (with_fetch f env) (client_ip event) (usageStats st)
          = try_catch event env (client_ip event) (usageStats st)) as ->; [|done].
  unfold forwards in Hnone. unfold try_catch, try_block.
  change (HUGGINGFACE_API_KEY (with_fetch f env)) with (HUGGINGFACE_API_KEY env).
  repeat (case_match; simplify_eq); done.
Qed.

Lemma upstream_not_consulted_witness :
  handler (post alice (with_prompt long_prompt))
    (with_fetch (λ _, FetchJson (JStr "pong")) (env_at 0)) (initial_state 0)
  = handler (post alice (with_prompt long_prompt)) (env_at 0) (initial_state 0).
Proof.
  apply (upstream_not_consulted (post alice (with_prompt long_prompt)) (env_at 0)
           (initial_state 0) (λ _, FetchJson (JStr "pong"))).
  - reflexivity.
  - right. vm_compute. reflexivity.
Defined.

(** X13. The bounds of the conversation check: a conversation is
    accepted exactly when it is absent or falsy, or when both of its
    lists are arrays of at most 10 entries. *)
Theorem conversation_bounds (conversation : value) :
  conversation_invalid conversation = false
  ↔ truthy conversation = false
    ∨ ∃ past generated,
        prop conversation "past_user_inputs" = Some (JArr past)
        ∧ prop conversation "generated_responses" = Some (JArr generated)
        ∧ (length past ≤ 10)%nat ∧ (length generated ≤ 10)%nat.
Proof.
  unfold conversation_invalid. destruct (truthy conversation); cbn; [|by split; [left|]].
  split.
  - intros H. right.
    destruct (prop conversation "past_user_inputs") as [[|?|?|?|past|?]|];
      try done.
    destruct (prop conversation "generated_responses") as [[|?|?|?|gen|?]|];
      try done.
    cbn in H. apply orb_false_iff in H as [H1 H2].
    apply bool_decide_eq_false in H1, H2. exists past, gen. split_and!; [done | done | lia | lia].
  - intros [?|(past & gen & -> & -> & Hp & Hg)]; [done|]. cbn.
    rewrite !bool_decide_eq_false_2 by lia. done.
Qed.

(** X14. A valid request is passed through: an admitted POST with a
    non-empty prompt of at most 500 characters, an acceptable
    conversation and the API key set, to which the upstream answers
    data without a truthy [error], is answered 200 with exactly that
    data and counted as one successful request. *)
Theorem valid_request_passed_through event env st l' fields s data :
  httpMethod event = "POST"%string →
  checkRateLimit (client_ip event) (now_check env) (swept env st) = (l', Allowed) →
  body event = Parsed (JObj fields) →
  assoc fields "prompt" = Some (JStr s) →
  s ≠ ""%string →
  (String.length s ≤ 500)%nat →
  conversation_invalid (assoc fields "conversation") = false →
  api_key_set (HUGGINGFACE_API_KEY env) = true →
  fetch env (hfPayload (Some (JStr s)) (assoc fields "conversation")) = FetchJson data →
  data ≠ JNull →
  truthy (prop (Some data) "error") = false →
  handler event env st =
    ({| requestCounts := l';
        usageStats := logUsage (client_ip event) true (usageStats st) |},
     {| statusCode := 200; response_body := DataBody data |})
  ∧ errors (logUsage (client_ip event) true (usageStats st)) = errors (usageStats st).
Proof.
  intros Hpost Hcheck Hbody Hprompt Hne Hlen Hconv Hkey Hfetch Hdata Herr.
  split; [|done]. rewrite handler_post by done. rewrite Hcheck.
  unfold try_catch, try_block, parsed_body. rewrite Hbody. cbn.
  rewrite Hprompt. cbn. rewrite bool_decide_eq_false_2 by done. cbn.
  rewrite decide_False by lia. rewrite Hconv, Hkey. cbn. rewrite Hfetch.
  destruct data; try done; cbn in Herr |- *; by rewrite ?Herr.
Qed.

Lemma valid_request_passed_through_witness :
  handler (post alice (with_prompt "hi"))
    (with_fetch (λ _, FetchJson (JObj [("generated_text"%string, JStr "hello")]))
       (env_at 0))
    (initial_state 0) =
    ({| requestCounts := ledger_one_call;
        usageStats := logUsage (client_ip (post alice (with_prompt "hi"))) true
                        (usageStats (initial_state 0)) |},
     {| statusCode := 200;
        response_body := DataBody (JObj [("generated_text"%string, JStr "hello")]) |})
  ∧ errors (logUsage (client_ip (post alice (with_prompt "hi"))) true
              (usageStats (initial_state 0)))
    = errors (usageStats (initial_state 0)).
Proof.
  apply (valid_request_passed_through (post alice (with_prompt "hi"))
           (with_fetch (λ _, FetchJson (JObj [("generated_text"%string, JStr "hello")]))
              (env_at 0))
           (initial_state 0) ledger_one_call [("prompt"%string, JStr "hi")] "hi").
  - reflexivity.
  - vm_compute. reflexivity.
  - reflexivity.
  - reflexivity.
  - discriminate.
  - vm_compute. lia.
  - reflexivity.
  - reflexivity.
  - reflexivity.
  - discriminate.
  - reflexivity.
Defined.

(** ** What every state of the handler satisfies *)

Lemma swept_reachable env st :
  reachable (requestCounts st) → reachable (swept env st).
Proof.
  intros Hl. unfold swept. case_decide; [by apply reachable_cleanup | done].
Qed.

Lemma swept_dom env st : dom (swept env st) ⊆ dom (requestCounts st).
Proof.
  unfold swept. case_decide; [apply dom_omap_subseteq | done].
Qed.

(** One invocation, by what it does to the state: nothing; a denial; or
    an admission followed by one run of [logUsage], or by two. *)
Lemma handler_state_cases event env st :
  (handler event env st).1 = st
  ∨ (∃ p lim l',
       checkRateLimit (client_ip event) (now_check env) (swept env st)
       = (l', Denied p lim)
       ∧ (handler event env st).1
         = {| requestCounts := l'; usageStats := hit (usageStats st) |})
  ∨ (∃ success u l',
       checkRateLimit (client_ip event) (now_check env) (swept env st)
       = (l', Allowed)
       ∧ (u = usageStats st ∨ u = logUsage (client_ip event) false (usageStats st))
       ∧ (handler event env st).1
         = {| requestCounts := l';
              usageStats := logUsage (client_ip event) success u |}).
Proof.
  destruct (decide (httpMethod event = "POST"%string)) as [Hpost|Hother].
  2:{ left. by apply only_post_writes_state. }
  right. rewrite handler_post by done.
  destruct (checkRateLimit _ _ _) as [l' [|p lim]] eqn:Hrun.
  - right. destruct (try_catch_logs event env (client_ip event) (usageStats st))
      as [(success & response & -> & _) | ->].
    + exists success, (usageStats st), l'. by split_and!; [|left|].
    + exists false, (logUsage (client_ip event) false (usageStats st)), l'.
      by split_and!; [|right|].
  - left. by exists p, lim, l'.
Qed.

Lemma served_reachable st : served st → reachable (requestCounts st).
Proof.
  induction 1 as [t0|event env st _ IH]; [apply reachable_empty|].
  pose proof (reachable_check (client_ip event) (now_check env) (swept env st)
                (swept_reachable env st IH)) as Hnext.
  destruct (handler_state_cases event env st)
    as [->|[(p & lim & l' & Hrun & ->)|(success & u & l' & Hrun & _ & ->)]];
    [done | |]; by rewrite Hrun in Hnext.
Qed.

Lemma served_run_handler requests st :
  served st → served (run_handler requests st).1.
Proof.
  revert st. induction requests as [|[event env] rest IH]; intros st Hst; [done|].
  cbn. pose proof (served_next event env st Hst) as Hnext.
  destruct (handler event env st) as [st' response]. cbn in Hnext.
  specialize (IH st' Hnext). by destruct (run_handler rest st').
Qed.

Lemma served_plainly_served st : served_plainly st → served st.
Proof.
  induction 1 as [t0|event env st _ _ IH];
    [apply served_initial | by apply served_next].
Qed.

Lemma served_plainly_run_handler requests st :
  forallb (λ r, plain (client_ip r.1)) requests = true →
  served_plainly st → served_plainly (run_handler requests st).1.
Proof.
  revert st. induction requests as [|[event env] rest IH]; intros st Hall Hst; [done|].
  cbn in Hall. apply andb_prop in Hall as [Hip Hall].
  cbn. pose proof (served_plainly_next event env st Hip Hst) as Hnext.
  destruct (handler event env st) as [st' response]. cbn in Hnext.
  specialize (IH st' Hall Hnext). by destruct (run_handler rest st').
Qed.

(** X15. Through the handler, serving identities that name no property
    of [Object.prototype], no identity ever holds more timestamps in a
    tier than the tier admits, and a shorter tier never holds more than
    a longer one. *)
Theorem served_within_limits st ip :
  served_plainly st →
  (∀ p c, (p, c) ∈ RATE_LIMITS →
     Z.of_nat (length (recorded (requestCounts st) ip p)) ≤ max c)
  ∧ (length (recorded (requestCounts st) ip "minute")
     ≤ length (recorded (requestCounts st) ip "hour")
     ≤ length (recorded (requestCounts st) ip "day"))%nat.
Proof.
  intros Hst%served_plainly_served.
  pose proof (served_reachable st Hst) as Hl. split.
  - intros p c Hp. by apply reachable_within_limits.
  - pose proof (reachable_nested _ Hl ip) as Hn. split; apply sublist_length.
    + apply (Hn _ {| max := 10; window := 60 * 1000 |}
                _ {| max := 50; window := 60 * 60 * 1000 |}); [left | right; left].
    + apply (Hn _ {| max := 50; window := 60 * 60 * 1000 |}
                _ {| max := 200; window := 24 * 60 * 60 * 1000 |});
        [right; left | right; right; left].
Qed.

Lemma served_within_limits_witness :
  (∀ p c, (p, c) ∈ RATE_LIMITS →
     Z.of_nat (length (recorded (requestCounts state_after_ten_posts) alice p)) ≤ max c)
  ∧ (length (recorded (requestCounts state_after_ten_posts) alice "minute")
     ≤ length (recorded (requestCounts state_after_ten_posts) alice "hour")
     ≤ length (recorded (requestCounts state_after_ten_posts) alice "day"))%nat.
Proof.
  apply (served_within_limits state_after_ten_posts alice).
  apply served_plainly_run_handler; [reflexivity | apply served_plainly_initial].
Defined.

Lemma size_add_one (ip : string) (X : gset string) :
  (size ({[ip]} ∪ X) ≤ S (size X))%nat.
Proof.
  rewrite size_union_alt, size_singleton.
  assert (X ∖ {[ip]} ⊆ X) as Hsub by set_solver.
  apply subseteq_size in Hsub. lia.
Qed.

(** X16. In every state of the handler the counters are consistent: the
    failed requests and the distinct identities are each at most the
    total of counted requests, and nothing is negative. *)
Theorem served_counters st :
  served st →
  0 ≤ errors (usageStats st) ≤ totalRequests (usageStats st)
  ∧ Z.of_nat (size (uniqueIPs (usageStats st))) ≤ totalRequests (usageStats st)
  ∧ 0 ≤ rateLimitHits (usageStats st).
Proof.
  induction 1 as [t0|event env st _ IH].
  { cbn. rewrite size_empty. lia. }
  destruct IH as (He & Hu & Hh).
  destruct (handler_state_cases event env st)
    as [->|[(p & lim & l' & _ & ->)|(success & u & l' & _ & Hu0 & ->)]].
  - done.
  - cbn. lia.
  - revert Hu0. generalize (client_ip event). intros ip [-> | ->]; cbn.
    + pose proof (size_add_one ip (uniqueIPs (usageStats st))).
      destruct success; lia.
    + pose proof (size_add_one ip (uniqueIPs (usageStats st))).
      pose proof (size_add_one ip ({[ip]} ∪ uniqueIPs (usageStats st))).
      destruct success; lia.
Qed.

Lemma served_counters_witness :
  0 ≤ errors (usageStats state_after_ten_posts)
    ≤ totalRequests (usageStats state_after_ten_posts)
  ∧ Z.of_nat (size (uniqueIPs (usageStats state_after_ten_posts)))
    ≤ totalRequests (usageStats state_after_ten_posts)
  ∧ 0 ≤ rateLimitHits (usageStats state_after_ten_posts).
Proof.
  apply (served_counters state_after_ten_posts).
  apply served_run_handler, served_initial.
Defined.

Lemma served_known st :
  served st → dom (requestCounts st) ⊆ uniqueIPs (usageStats st).
Proof.
  induction 1 as [t0|event env st _ IH]; [cbn; by rewrite dom_empty_L|].
  pose proof (swept_dom env st) as Hswept.
  destruct (handler_state_cases event env st)
    as [->|[(p & lim & l' & Hrun & ->)|(success & u & l' & Hrun & Hu0 & ->)]];
    [done | |].
  - revert Hrun Hswept. generalize (client_ip event), (swept env st).
    intros ip l Hrun Hswept; cbn.
    assert (ip ∈ dom l) as Hseen.
    { destruct (checkRateLimit_denied _ _ _ _ _ _ Hrun) as (c & Hc & _ & E & Hge & _).
      pose proof (RATE_LIMITS_max_pos p c Hc) as Hpos.
      assert (recorded l ip p ≠ []) as Hne.
      { intros Hnil. rewrite E, Hnil in Hge. cbn in Hge. lia. }
      apply elem_of_dom. destruct (l !! ip) as [b|] eqn:Hl; [done|].
      exfalso. apply Hne. unfold recorded, timestamps. rewrite Hl. cbn.
      by rewrite lookup_empty. }
    unfold checkRateLimit in Hrun. rewrite checkRateLimit_with_bucket in Hrun.
    injection Hrun as <- _. rewrite dom_insert_L. set_solver.
  - assert (uniqueIPs (usageStats st) ⊆ uniqueIPs u) as Hu.
    { destruct Hu0 as [-> | ->]; cbn; set_solver. }
    clear Hu0. revert Hrun Hswept. generalize (client_ip event), (swept env st).
    intros ip l Hrun Hswept; cbn.
    unfold checkRateLimit in Hrun. rewrite checkRateLimit_with_bucket in Hrun.
    injection Hrun as <- _. rewrite dom_insert_L. set_solver.
Qed.

(** X17. In every state of the handler, serving identities that name
    no property of [Object.prototype], the identities in the ledger have
    all been counted as clients: the snapshot's [activeIPs] is never
    above its [uniqueIPs]. *)
Theorem active_at_most_unique st now :
  served_plainly st →
  dom (requestCounts st) ⊆ uniqueIPs (usageStats st)
  ∧ stats_activeIPs (getUsageStats now st) ≤ stats_uniqueIPs (getUsageStats now st).
Proof.
  intros Hst%served_plainly_served.
  pose proof (served_known st Hst) as Hdom. split; [done|].
  cbn. apply subseteq_size in Hdom. rewrite size_dom in Hdom. lia.
Qed.

Lemma active_at_most_unique_witness :
  dom (requestCounts state_after_ten_posts)
    ⊆ uniqueIPs (usageStats state_after_ten_posts)
  ∧ stats_activeIPs (getUsageStats 5 state_after_ten_posts)
    ≤ stats_uniqueIPs (getUsageStats 5 state_after_ten_posts).
Proof.
  apply (active_at_most_unique state_after_ten_posts 5).
  apply served_plainly_run_handler; [reflexivity | apply served_plainly_initial].
Defined.

(** ** Requests answered before the fetch *)

(** X18. An admitted POST whose body is not JSON, or is the JSON value
    null, is answered 500 "Internal server error" and counted as one
    failed request; the admission stays recorded. *)
Theorem unusable_body_is_internal_error event env st l' :
  httpMethod event = "POST"%string →
  checkRateLimit (client_ip event) (now_check env) (swept env st) = (l', Allowed) →
  body event = Malformed ∨ body event = Parsed JNull →
  handler event env st =
    ({| requestCounts := l';
        usageStats := logUsage (client_ip event) false (usageStats st) |},
     {| statusCode := 500; response_body := ErrorBody "Internal server error" |}).
Proof.
  intros Hpost Hcheck Hbody. rewrite handler_post by done. rewrite Hcheck.
  unfold try_catch, try_block, parsed_body. by destruct Hbody as [-> | ->].
Qed.

Lemma unusable_body_is_internal_error_witness :
  handler (post alice Malformed) (env_at 0) (initial_state 0) =
    ({| requestCounts := ledger_one_call;
        usageStats := logUsage (client_ip (post alice Malformed)) false
                        (usageStats (initial_state 0)) |},
     {| statusCode := 500; response_body := ErrorBody "Internal server error" |}).
Proof.
  apply (unusable_body_is_internal_error (post alice Malformed) (env_at 0)
           (initial_state 0) ledger_one_call).
  - reflexivity.
  - vm_compute. reflexivity.
  - by left.
Defined.

(** X19. An admitted POST whose body is absent, or parses to any value
    other than null in which [prompt] is missing, is not a string or is
    the empty string, is answered 400 "Invalid or missing prompt" and
    counted as one failed request, whatever else the body holds. *)
Theorem prompt_required event env st l' parsed :
  httpMethod event = "POST"%string →
  checkRateLimit (client_ip event) (now_check env) (swept env st) = (l', Allowed) →
  parsed_body event = Some parsed →
  parsed ≠ JNull →
  (∀ s, prop (Some parsed) "prompt" = Some (JStr s) → s = ""%string) →
  handler event env st =
    ({| requestCounts := l';
        usageStats := logUsage (client_ip event) false (usageStats st) |},
     {| statusCode := 400; response_body := ErrorBody "Invalid or missing prompt" |}).
Proof.
  intros Hpost Hcheck Hbody Hnull Hprompt. rewrite handler_post by done.
  rewrite Hcheck. unfold try_catch, try_block. rewrite Hbody.
  assert (negb (truthy (prop (Some parsed) "prompt"))
          || negb (typeof_string (prop (Some parsed) "prompt")) = true) as Hbad.
  { destruct (prop (Some parsed) "prompt") as [[|b|x|s|items|fields]|];
      cbn; rewrite ?orb_true_r; try done.
    by rewrite (Hprompt s eq_refl). }
  destruct parsed; try done; by rewrite Hbad.
Qed.

Lemma prompt_required_witness :
  handler (post alice NoBody) (env_at 0) (initial_state 0) =
    ({| requestCounts := ledger_one_call;
        usageStats := logUsage (client_ip (post alice NoBody)) false
                        (usageStats (initial_state 0)) |},
     {| statusCode := 400; response_body := ErrorBody "Invalid or missing prompt" |}).
Proof.
  apply (prompt_required (post alice NoBody) (env_at 0) (initial_state 0)
           ledger_one_call (JObj [])).
  - reflexivity.
  - vm_compute. reflexivity.
  - reflexivity.
  - discriminate.
  - intros s Hs. discriminate Hs.
Defined.

(** X20. Without an API key (unset or empty) an admitted request with an
    acceptable payload is answered 500 "AI service not configured" and
    counted as one failed request. *)
Theorem key_required event env st l' fields s :
  httpMethod event = "POST"%string →
  checkRateLimit (client_ip event) (now_check env) (swept env st) = (l', Allowed) →
  body event = Parsed (JObj fields) →
  assoc fields "prompt" = Some (JStr s) →
  s ≠ ""%string →
  (String.length s ≤ 500)%nat →
  conversation_invalid (assoc fields "conversation") = false →
  HUGGINGFACE_API_KEY env = None ∨ HUGGINGFACE_API_KEY env = Some ""%string →
  handler event env st =
    ({| requestCounts := l';
        usageStats := logUsage (client_ip event) false (usageStats st) |},
     {| statusCode := 500; response_body := ErrorBody "AI service not configured" |}).
Proof.
  intros Hpost Hcheck Hbody Hprompt Hne Hlen Hconv Hkey.
  rewrite handler_post by done. rewrite Hcheck.
  unfold try_catch, try_block, parsed_body. rewrite Hbody. cbn.
  rewrite Hprompt. cbn. rewrite bool_decide_eq_false_2 by done. cbn.
  rewrite decide_False by lia. rewrite Hconv.
  by destruct Hkey as [-> | ->].
Qed.

Lemma key_required_witness :
  handler (post alice (with_prompt "hi"))
    {| now_stats := 0; now_cleanup := 0; now_check := 0;
       HUGGINGFACE_API_KEY := Some ""%string; fetch := λ _, FetchThrows |}
    (initial_state 0) =
    ({| requestCounts := ledger_one_call;
        usageStats := logUsage (client_ip (post alice (with_prompt "hi"))) false
                        (usageStats (initial_state 0)) |},
     {| statusCode := 500; response_body := ErrorBody "AI service not configured" |}).
Proof.
  apply (key_required (post alice (with_prompt "hi"))
           {| now_stats := 0; now_cleanup := 0; now_check := 0;
              HUGGINGFACE_API_KEY := Some ""%string; fetch := λ _, FetchThrows |}
           (initial_state 0) ledger_one_call [("prompt"%string, JStr "hi")] "hi").
  - reflexivity.
  - vm_compute. reflexivity.
  - reflexivity.
  - reflexivity.
  - discriminate.
  - vm_compute. lia.
  - reflexivity.
  - by right.
Defined.

(** ** The counters across one POST *)

(** X23. The counters across one POST, in a state of the handler that
    served identities naming no property of [Object.prototype], from
    such an identity. A denial by the rate limiter (the 429 response)
    adds one to [rateLimitHits] and leaves the other counters. An admitted request leaves [rateLimitHits] and adds one to
    [totalRequests], except when the upstream answer carries an [error]
    without a string form: then [logUsage] runs twice and
    [totalRequests] is two higher. A request answered 200 leaves
    [errors]; every other admitted request adds to [errors] what it adds
    to [totalRequests]. *)
Theorem counters_across_a_post event env st l' r :
  served_plainly st →
  plain (client_ip event) = true →
  httpMethod event = "POST"%string →
  checkRateLimit (client_ip event) (now_check env) (swept env st) = (l', r) →
  ∃ u' response,
    handler event env st = ({| requestCounts := l'; usageStats := u' |}, response)
    ∧ (statusCode response = 429 ↔ r ≠ Allowed)
    ∧ (r ≠ Allowed → u' = hit (usageStats st))
    ∧ (r = Allowed →
       rateLimitHits u' = rateLimitHits (usageStats st)
       ∧ totalRequests u'
         = totalRequests (usageStats st) + (if logged_twice event env then 2 else 1)
       ∧ errors u'
         = errors (usageStats st)
           + (if decide (statusCode response = 200) then 0
              else if logged_twice event env then 2 else 1)
       ∧ uniqueIPs u' = {[client_ip event]} ∪ uniqueIPs (usageStats st)).
Proof.
  intros _ _ Hpost Hcheck. rewrite handler_post by done. rewrite Hcheck.
  destruct r as [|p lim].
  2:{ eexists _, _. split; [done|]. cbn. split_and!; [done | done | done]. }
  unfold logged_twice.
  destruct (forwards event env) as [payload|] eqn:Hfw.
  - rewrite (try_catch_forwarded _ _ _ _ _ Hfw). unfold unprintable_error.
    generalize (client_ip event). intros ip.
    destruct (fetch env payload) as [|data];
      [|destruct data as [|b|x|s|items|fields]; cbn [prop truthy default andb];
        [..|destruct (truthy (assoc fields "error"));
            [destruct (ToString_throws _)|]]];
      (eexists _, _; (split; [done|]); cbn; split_and!; [done | done |];
       intros _; split_and!; [done | lia | case_decide; (done || lia) | set_solver]).
  - destruct (try_catch_not_forwarded event env (client_ip event) (usageStats st) Hfw)
      as (response & -> & Hstatus).
    generalize (client_ip event). intros ip.
    eexists _, _. split; [done|]. cbn.
    assert (statusCode response ≠ 429 ∧ statusCode response ≠ 200) as [H429 H200].
    { rewrite !elem_of_cons in Hstatus.
      destruct Hstatus as [-> | [-> | ?%elem_of_nil]]; done. }
    rewrite (decide_False _ _ H200). split_and!; try done.
Qed.

Lemma counters_across_a_post_witness :
  ∃ u' response,
    handler (post alice (with_prompt "hi")) answers_unprintable (initial_state 0)
    = ({| requestCounts := ledger_one_call; usageStats := u' |}, response)
    ∧ (statusCode response = 429 ↔ Allowed ≠ Allowed)
    ∧ (Allowed ≠ Allowed → u' = hit (usageStats (initial_state 0)))
    ∧ (Allowed = Allowed →
       rateLimitHits u' = rateLimitHits (usageStats (initial_state 0))
       ∧ totalRequests u'
         = totalRequests (usageStats (initial_state 0))
           + (if logged_twice (post alice (with_prompt "hi")) answers_unprintable
              then 2 else 1)
       ∧ errors u'
         = errors (usageStats (initial_state 0))
           + (if decide (statusCode response = 200) then 0
              else if logged_twice (post alice (with_prompt "hi")) answers_unprintable
                   then 2 else 1)
       ∧ uniqueIPs u'
         = {[client_ip (post alice (with_prompt "hi"))]}
           ∪ uniqueIPs (usageStats (initial_state 0))).
Proof.
  apply (counters_across_a_post (post alice (with_prompt "hi")) answers_unprintable
           (initial_state 0) ledger_one_call Allowed).
  - apply served_plainly_initial.
  - reflexivity.
  - reflexivity.
  - vm_compute. reflexivity.
Defined.

(** X24. In a state of the handler that served identities naming no
    property of [Object.prototype], a failed downstream call in an
    admitted request of such an identity leaves the ledger as
    [checkRateLimit] recorded the admission. When the [error]
    of the answer has a string form, or the call threw, [logUsage] runs
    once without [success]; the answer is 502 "AI service error" for an
    error payload and 500 "Internal server error" for a throw. When the
    [error] has no string form, [logUsage] runs twice and the answer is
    500 "Internal server error". *)
Theorem failed_upstream_accounting event env st l' payload :
  served_plainly st →
  plain (client_ip event) = true →
  httpMethod event = "POST"%string →
  checkRateLimit (client_ip event) (now_check env) (swept env st) = (l', Allowed) →
  forwards event env = Some payload →
  upstream_failed (fetch env payload) = true →
  ∃ u' response,
    handler event env st = ({| requestCounts := l'; usageStats := u' |}, response)
    ∧ (if unprintable_error (fetch env payload)
       then u' = logUsage (client_ip event) false
                   (logUsage (client_ip event) false (usageStats st))
            ∧ response
              = {| statusCode := 500;
                   response_body := ErrorBody "Internal server error" |}
       else u' = logUsage (client_ip event) false (usageStats st)
            ∧ response
              = match fetch env payload with
                | FetchThrows | FetchJson JNull =>
                    {| statusCode := 500;
                       response_body := ErrorBody "Internal server error" |}
                | FetchJson _ =>
                    {| statusCode := 502;
                       response_body := ErrorBody "AI service error" |}
                end).
Proof.
  intros _ _ Hpost Hcheck Hpayload Hfail.
  rewrite handler_post by done. rewrite Hcheck.
  rewrite (try_catch_forwarded _ _ _ _ _ Hpayload).
  unfold upstream_failed in Hfail. unfold unprintable_error.
  destruct (fetch env payload) as [|data]; [by eexists _, _|].
  destruct data; try rewrite Hfail; try discriminate Hfail;
    try (destruct (ToString_throws _)); by eexists _, _.
Qed.

Lemma failed_upstream_accounting_witness :
  ∃ u' response,
    handler (post alice (with_prompt "hi")) answers_model_loading (initial_state 0)
    = ({| requestCounts := ledger_one_call; usageStats := u' |}, response)
    ∧ (if unprintable_error
            (fetch answers_model_loading (JObj [("inputs"%string, JStr "hi")]))
       then u' = logUsage (client_ip (post alice (with_prompt "hi"))) false
                   (logUsage (client_ip (post alice (with_prompt "hi"))) false
                      (usageStats (initial_state 0)))
            ∧ response
              = {| statusCode := 500;
                   response_body := ErrorBody "Internal server error" |}
       else u' = logUsage (client_ip (post alice (with_prompt "hi"))) false
                   (usageStats (initial_state 0))
            ∧ response
              = match fetch answers_model_loading
                        (JObj [("inputs"%string, JStr "hi")]) with
                | FetchThrows | FetchJson JNull =>
                    {| statusCode := 500;
                       response_body := ErrorBody "Internal server error" |}
                | FetchJson _ =>
                    {| statusCode := 502;
                       response_body := ErrorBody "AI service error" |}
                end).
Proof.
  apply (failed_upstream_accounting (post alice (with_prompt "hi"))
           answers_model_loading (initial_state 0) ledger_one_call
           (JObj [("inputs"%string, JStr "hi")])).
  - apply served_plainly_initial.
  - reflexivity.
  - reflexivity.
  - vm_compute. reflexivity.
  - vm_compute. reflexivity.
  - reflexivity.
Defined.

(** * Properties of the single-tier handler *)

(** X21. In every state of the single-tier handler no client holds more
    than 30 timestamps, and a 429 is answered exactly when the client
    holds 30 timestamps younger than a minute, which then stay as they
    are: the denied request is not recorded. *)
Theorem basic_within_limit counts event env ip :
  Basic.served counts →
  Z.of_nat (length (default [] (counts !! ip))) ≤ 30
  ∧ (httpMethod event = "POST"%string →
     let pruned := prune (now_check env) (60 * 1000)
                     (default [] (counts !! Basic.client_ip event)) in
     (statusCode (Basic.handler event env counts).2 = 429
      ↔ Z.of_nat (length pruned) = 30)
     ∧ (statusCode (Basic.handler event env counts).2 = 429 →
        (Basic.handler event env counts).1
        = <[Basic.client_ip event := pruned]> counts)).
Proof.
  intros Hserved.
  assert (∀ c, Basic.served c →
            ∀ i, Z.of_nat (length (default [] (c !! i))) ≤ 30) as Hinv.
  { clear. induction 1 as [|event env c _ IH]; intros i.
    { rewrite lookup_empty. cbn. lia. }
    unfold Basic.handler. generalize (Basic.client_ip event). intros j.
    pose proof (length_prune (now_check env) Basic.RATE_LIMIT_WINDOW_MS
                  (default [] (c !! j))) as Hp.
    pose proof (IH j) as Hj.
    repeat case_decide; cbn [fst]; try apply IH.
    - rewrite lookup_insert. case_decide; [cbn; lia | apply IH].
    - rewrite lookup_insert. case_decide; [|apply IH].
      cbn. rewrite length_app. cbn. unfold Basic.RATE_LIMIT_MAX in *. lia. }
  split; [by apply Hinv|]. intros Hpost. cbn zeta.
  pose proof (Hinv counts Hserved (Basic.client_ip event)) as Hle.
  pose proof (length_prune (now_check env) (60 * 1000)
                (default [] (counts !! Basic.client_ip event))) as Hp.
  unfold Basic.handler. rewrite Hpost.
  rewrite (decide_False (P := "POST"%string = "OPTIONS"%string)) by done.
  rewrite (decide_False (P := "POST"%string ≠ "POST"%string)) by (intros H; by apply H).
  cbv zeta. change Basic.RATE_LIMIT_WINDOW_MS with (60 * 1000).
  unfold Basic.RATE_LIMIT_MAX. revert Hle Hp.
  generalize (prune (now_check env) (60 * 1000)
                (default [] (counts !! Basic.client_ip event))).
  intros pruned Hle Hp. case_decide as Hfull; cbn [fst snd statusCode].
  - split; [split; [lia | done] | done].
  - assert (statusCode (Basic.try_catch event env) ≠ 429) as Hne.
    { unfold Basic.try_catch, Basic.try_block.
      repeat case_match; simplify_eq; cbn; lia. }
    split; [split; [done | lia] | done].
Qed.

Lemma basic_served_iter event env n :
  Basic.served (Nat.iter n (λ counts, (Basic.handler event env counts).1) ∅).
Proof.
  induction n as [|n IH]; [apply Basic.served_initial|].
  cbn. by apply Basic.served_next.
Qed.

Lemma basic_within_limit_witness :
  Z.of_nat (length (default [] (basic_after_thirty_posts !! alice))) ≤ 30
  ∧ (httpMethod (post alice (with_prompt "hi")) = "POST"%string →
     let pruned := prune (now_check (env_at 59999)) (60 * 1000)
                     (default [] (basic_after_thirty_posts
                                    !! Basic.client_ip (post alice (with_prompt "hi")))) in
     (statusCode (Basic.handler (post alice (with_prompt "hi")) (env_at 59999)
                    basic_after_thirty_posts).2 = 429
      ↔ Z.of_nat (length pruned) = 30)
     ∧ (statusCode (Basic.handler (post alice (with_prompt "hi")) (env_at 59999)
                      basic_after_thirty_posts).2 = 429 →
        (Basic.handler (post alice (with_prompt "hi")) (env_at 59999)
           basic_after_thirty_posts).1
        = <[Basic.client_ip (post alice (with_prompt "hi")) := pruned]>
            basic_after_thirty_posts)).
Proof.
  apply (basic_within_limit basic_after_thirty_posts (post alice (with_prompt "hi"))
           (env_at 59999) alice).
  apply basic_served_iter.
Defined.

Example basic_thirty_first_denied :
  (Basic.handler (post alice (with_prompt "hi")) (env_at 59999)
     basic_after_thirty_posts).2
  = {| statusCode := 429;
       response_body := ErrorBody "Too many requests. Please slow down." |}
  ∧ statusCode (Basic.handler (post alice (with_prompt "hi")) (env_at 60000)
                  basic_after_thirty_posts).2 = 500.
Proof. by vm_compute. Qed.




(** The two exceptions, at the first POST of a client. *)
Example answers_differ :
  (handler (post alice (with_prompt long_prompt)) (env_at 0) (initial_state 0)).2
  = {| statusCode := 400;
       response_body := ErrorBody "Prompt too long (max 500 characters)" |}
  ∧ (Basic.handler (post alice (with_prompt long_prompt)) (env_at 0) ∅).2
    = {| statusCode := 400; response_body := ErrorBody "Invalid or missing prompt" |}
  ∧ (handler (post alice (with_prompt "hi")) answers_unprintable (initial_state 0)).2
    = {| statusCode := 500; response_body := ErrorBody "Internal server error" |}
  ∧ (Basic.handler (post alice (with_prompt "hi")) answers_unprintable ∅).2
    = {| statusCode := 502; response_body := ErrorBody "AI service error" |}.
Proof. by vm_compute. Qed.
